(** * Field-usage extraction and CIM compliance of [cim_validation.py]

    A shallow embedding of the module [cim_validation.py] of the SPL linter:
    the mapping table [CIM_FIELD_MAPPINGS], the regular expressions of
    [COMMAND_PATTERNS], the four extractors, [parse_search_query],
    [check_cim_compliance], [get_field_aliases] and [suggest_alias].

    Python strings are modelled by [string]; a character is one of the 256
    code points of the Latin-1 range, classified as Python's [str.isspace],
    [str.isalnum] and [str.lower] classify it.  The [re] module is modelled
    by a backtracking matcher over a small syntax of patterns, with the
    priorities of Python's engine (greedy and lazy repetition, ordered
    alternation, capture groups, [$] and [\b]).

    The modules [formatter.py] ([format_search]) and [best_practices.py]
    (the table [BEST_PRACTICES], its ten checks and [check_best_practices])
    are embedded after it, over the same strings and the same matcher. *)

From Stdlib Require Import Ascii String NArith Bool Lia.
From stdpp Require Import base option list gmap strings.

Local Open Scope string_scope.

(** ** Characters *)

Module Char.

Definition code (c : ascii) : N := N_of_ascii c.

Definition between (lo hi : N) (c : ascii) : bool :=
  (lo <=? code c)%N && (code c <=? hi)%N.

Definition at_code (n : N) (c : ascii) : bool := (code c =? n)%N.

(** [str.isspace] on the Latin-1 range: TAB, LF, VT, FF, CR, the separators
    FS, GS, RS, US, the space, NEL and the no-break space. *)
Definition isspace (c : ascii) : bool :=
  between 9 13 c || between 28 32 c || at_code 133 c || at_code 160 c.

(** [str.isalnum] on the Latin-1 range. *)
Definition isalnum (c : ascii) : bool :=
  between 48 57 c || between 65 90 c || between 97 122 c
  || at_code 170 c || at_code 178 c || at_code 179 c || at_code 181 c
  || at_code 185 c || at_code 186 c
  || between 188 190 c || between 192 214 c || between 216 246 c
  || between 248 255 c.

(** The class [\w] of a [str] pattern: alphanumeric or underscore. *)
Definition isword (c : ascii) : bool := isalnum c || at_code 95 c.

(** The class [.] without [re.DOTALL]: anything but a newline. *)
Definition notnl (c : ascii) : bool := negb (at_code 10 c).

(** [str.lower] on one character of the Latin-1 range. *)
Definition lower (c : ascii) : ascii :=
  if between 65 90 c || (between 192 222 c && negb (at_code 215 c))
  then ascii_of_N (code c + 32) else c.

End Char.

(** ** String methods *)

Fixpoint lower (s : string) : string :=
  match s with
  | "" => ""
  | String c s' => String (Char.lower c) (lower s')
  end.

Fixpoint lstrip (s : string) : string :=
  match s with
  | "" => ""
  | String c s' => if Char.isspace c then lstrip s' else s
  end.

Fixpoint rstrip (s : string) : string :=
  match s with
  | "" => ""
  | String c s' =>
      match rstrip s' with
      | "" => if Char.isspace c then "" else String c ""
      | r => String c r
      end
  end.

Definition strip (s : string) : string := rstrip (lstrip s).

(** [s.split(sep)] for a separator of one character: always at least one
    piece, empty pieces kept. *)
Fixpoint split (sep : ascii) (s : string) : list string :=
  match s with
  | "" => [""]
  | String c s' =>
      if Ascii.eqb c sep then "" :: split sep s'
      else match split sep s' with
           | piece :: pieces => String c piece :: pieces
           | [] => [String c ""]
           end
  end.

(** ** Exceptions *)

Inductive exn := ValueError | IndexError | AttributeError.

Inductive result (A : Type) :=
| Ok (a : A)
| Raise (e : exn).
Arguments Ok {A} a.
Arguments Raise {A} e.

Global Instance result_ret : MRet result := fun A a => Ok a.

Global Instance result_bind : MBind result := fun A B f m =>
  match m with
  | Ok a => f a
  | Raise e => Raise e
  end.

(** A [for] loop that appends to a list: the bodies run in order and the
    first exception ends the loop. *)
Fixpoint for_each {A B} (l : list A) (body : A → result (list B))
  : result (list B) :=
  match l with
  | [] => Ok []
  | a :: l' => bs ← body a; bs' ← for_each l' body; Ok (bs ++ bs')%list
  end.

(** ** Regular expressions *)

Module Re.

(** The patterns of the module only repeat character classes, so repetition
    is a constructor over a class. *)
Inductive regex :=
| Eps
| Lit (c : ascii)
| Cls (p : ascii → bool)
| Star (greedy : bool) (p : ascii → bool)
| Cat (r1 r2 : regex)
| Alt (r1 r2 : regex)
| Group (i : nat) (r : regex)
| Eos
| WordB.

(** [p+] and [p+?] are one [p] followed by [p*] and [p*?]; [r?] tries [r]
    first. *)
Definition Plus (greedy : bool) (p : ascii → bool) : regex :=
  Cat (Cls p) (Star greedy p).
Definition Opt (r : regex) : regex := Alt r Eps.

Fixpoint Lits (s : string) : regex :=
  match s with
  | "" => Eps
  | String c s' => Cat (Lit c) (Lits s')
  end.

(** The state of a match attempt: the character before the position, the
    text from the position on, and the groups captured so far. *)
Record mstate := MState {
  prev : option ascii;
  rest : string;
  caps : list (nat * string)
}.

Definition step (st : mstate) (a : ascii) (s : string) : mstate :=
  MState (Some a) s (caps st).

(** What was consumed between two positions of the same text. *)
Definition consumed (from to : string) : nat :=
  String.length from - String.length to.

Definition taken (from to : string) : string :=
  substring 0 (consumed from to) from.

Definition set_group (i : nat) (txt : string) (st : mstate) : mstate :=
  MState (prev st) (rest st) ((i, txt) :: caps st).

Fixpoint assoc (i : nat) (l : list (nat * string)) : option string :=
  match l with
  | [] => None
  | (j, txt) :: l' => if Nat.eqb i j then Some txt else assoc i l'
  end.

(** [m.group(i)]: [None] when the group took no part in the match. *)
Definition group (st : mstate) (i : nat) : option string := assoc i (caps st).

(** [$] without [re.MULTILINE]: the end, or just before a final newline. *)
Definition at_end (s : string) : bool :=
  match s with
  | "" => true
  | String c "" => Char.at_code 10 c
  | _ => false
  end.

(** [\b]: exactly one of the two neighbours is a word character. *)
Definition at_boundary (p : option ascii) (s : string) : bool :=
  let before := match p with Some c => Char.isword c | None => false end in
  let after := match s with String c _ => Char.isword c | "" => false end in
  xorb before after.

Definition lit_eq (ic : bool) (c a : ascii) : bool :=
  if ic then Ascii.eqb (Char.lower a) (Char.lower c) else Ascii.eqb a c.

Section Matcher.
Context {A : Type}.

(** [p*?]: the continuation first, one more character on failure. *)
Fixpoint star_lazy (p : ascii → bool) (pv : option ascii) (s : string)
    (g : list (nat * string)) (k : mstate → option A) : option A :=
  match k (MState pv s g) with
  | Some r => Some r
  | None =>
      match s with
      | String a s' => if p a then star_lazy p (Some a) s' g k else None
      | "" => None
      end
  end.

(** [p*]: as many characters as possible, one fewer on failure. *)
Fixpoint star_greedy (p : ascii → bool) (pv : option ascii) (s : string)
    (g : list (nat * string)) (k : mstate → option A) : option A :=
  match s with
  | String a s' =>
      if p a then
        match star_greedy p (Some a) s' g k with
        | Some r => Some r
        | None => k (MState pv s g)
        end
      else k (MState pv s g)
  | "" => k (MState pv s g)
  end.

(** The backtracking matcher: [k] is what remains to be matched; the
    first success in priority order is the result. *)
Fixpoint rmatch (ic : bool) (r : regex) (st : mstate)
    (k : mstate → option A) : option A :=
  match r with
  | Eps => k st
  | Lit c =>
      match rest st with
      | String a s' => if lit_eq ic c a then k (step st a s') else None
      | "" => None
      end
  | Cls p =>
      match rest st with
      | String a s' => if p a then k (step st a s') else None
      | "" => None
      end
  | Star true p => star_greedy p (prev st) (rest st) (caps st) k
  | Star false p => star_lazy p (prev st) (rest st) (caps st) k
  | Cat r1 r2 => rmatch ic r1 st (fun st' => rmatch ic r2 st' k)
  | Alt r1 r2 =>
      match rmatch ic r1 st k with
      | Some x => Some x
      | None => rmatch ic r2 st k
      end
  | Group i r' =>
      rmatch ic r' st
        (fun st' => k (set_group i (taken (rest st) (rest st')) st'))
  | Eos => if at_end (rest st) then k st else None
  | WordB => if at_boundary (prev st) (rest st) then k st else None
  end.
End Matcher.

(** One attempt at one position.  [must_advance] refuses the empty match,
    as the engine does right after an empty match at the same position. *)
Definition match_here (ic : bool) (r : regex) (must_advance : bool)
    (pv : option ascii) (s : string) : option mstate :=
  rmatch ic r (MState pv s [])
    (fun st => if must_advance && Nat.eqb (consumed s (rest st)) 0 then None
               else Some st).

(** [re.match(r, s)]: a match object or [None]. *)
Definition re_match (ic : bool) (r : regex) (s : string) : option mstate :=
  match_here ic r false None s.

(** The groups [1..n] of a match as [findall] reports them: the empty string
    for a group that took no part. *)
Definition group_texts (n : nat) (st : mstate) : list string :=
  map (fun i => default "" (group st i)) (seq 1 n).

(** [m.groups()]. *)
Definition groups (n : nat) (st : mstate) : list (option string) :=
  map (group st) (seq 1 n).

(** The scan of [findall]: the leftmost match from the current position,
    then on from its end.  [skip] counts the characters of the last match
    still to pass.  After an empty match the same position is tried once
    more for a match that advances. *)
Fixpoint scan (ic : bool) (r : regex) (pv : option ascii) (s : string)
    (skip : nat) : list mstate :=
  let next k :=
    match s with
    | String c s' => scan ic r (Some c) s' k
    | "" => []
    end in
  match skip with
  | S k => next k
  | 0 =>
      match match_here ic r false pv s with
      | None => next 0
      | Some m =>
          match consumed s (rest m) with
          | S k => m :: next k
          | 0 =>
              m :: match match_here ic r true pv s with
                   | Some m' => m' :: next (pred (consumed s (rest m')))
                   | None => next 0
                   end
          end
      end
  end.

(** [findall] of a pattern with [n >= 2] groups: one tuple per match. *)
Definition findall_tuples (ic : bool) (r : regex) (n : nat) (s : string)
  : list (list string) :=
  map (group_texts n) (scan ic r None s 0).

(** [findall] of a pattern with one group: the text of that group. *)
Definition findall (ic : bool) (r : regex) (s : string) : list string :=
  map (fun m => default "" (group m 1)) (scan ic r None s 0).

End Re.

(** ** The module [cim_validation] *)

(** [CIM_FIELD_MAPPINGS]: a dict literal, in the order it is written. *)
Definition CIM_FIELD_MAPPINGS : list (string * list (string * string)) :=
  [ ("common",
      [ ("src_ip", "source"); ("dst_ip", "destination"); ("user", "user");
        ("host", "host"); ("sourcetype", "sourcetype"); ("index", "index");
        ("source", "source"); ("event_id", "event_id"); ("action", "action");
        ("status", "status"); ("uri", "uri"); ("method", "method") ]);
    ("crowdstrike",
      [ ("device_id", "device"); ("process_name", "process");
        ("user_id", "user"); ("alert_id", "alert_id") ]);
    ("bluecoat",
      [ ("url", "uri"); ("response_code", "status");
        ("action_taken", "action"); ("bytes_transferred", "bytes") ]);
    ("checkpoint",
      [ ("policy_name", "policy"); ("rule_number", "rule_number");
        ("source_zone", "source_zone");
        ("destination_zone", "destination_zone") ]);
    ("windows",
      [ ("win_logon_id", "logon_id"); ("win_event_code", "event_code");
        ("win_account_name", "account"); ("win_process_id", "process_id") ]);
    ("aws",
      [ ("aws_account_id", "account_id"); ("aws_region", "region");
        ("aws_service", "service"); ("aws_event_type", "event_type") ]);
    ("gcp",
      [ ("gcp_project_id", "project_id"); ("gcp_region", "region");
        ("gcp_service", "service"); ("gcp_event_type", "event_type") ]) ].

(** [ALL_CIM_FIELDS]: a set, updated with the values of every source. *)
Definition ALL_CIM_FIELDS : gset string :=
  foldl (fun acc source_fields => acc ∪ list_to_set (map snd source_fields.2))
        ∅ CIM_FIELD_MAPPINGS.

(** [COMMAND_PATTERNS], all compiled with [re.IGNORECASE]. *)
Module Pattern.
Import Re.

Definition Seq (rs : list regex) : regex := foldr Cat Eps rs.

Definition ws := Char.isspace.
Definition w := Char.isword.
Definition any := Char.notnl.

(** "rename\s+(.*?)\s+as\s+(.*?)($|\s|$)" *)
Definition rename : regex :=
  Seq [ Lits "rename"; Plus true ws; Group 1 (Star false any); Plus true ws;
        Lits "as"; Plus true ws; Group 2 (Star false any);
        Group 3 (Alt Eos (Alt (Cls ws) Eos)) ].

(** "eval\s+(.*?)\s*=" *)
Definition eval : regex :=
  Seq [ Lits "eval"; Plus true ws; Group 1 (Star false any); Star true ws;
        Lit "=" ].

(** "stats\s+(.*?)\s+by\s+" followed by the greedy group of ".*" *)
Definition stats : regex :=
  Seq [ Lits "stats"; Plus true ws; Group 1 (Star false any); Plus true ws;
        Lits "by"; Plus true ws; Group 2 (Star true any) ].

(** "lookup\s+(.*?)\s+(.*?)\s+OUTPUT(?:NEW)?\s+" followed by the greedy
    group of ".*" *)
Definition lookup : regex :=
  Seq [ Lits "lookup"; Plus true ws; Group 1 (Star false any); Plus true ws;
        Group 2 (Star false any); Plus true ws; Lits "OUTPUT";
        Opt (Lits "NEW"); Plus true ws; Group 3 (Star true any) ].

(** "\s*\w+\((.*?)\)\s*as\s*(\w+)" with [re.IGNORECASE] *)
Definition agg_alias : regex :=
  Seq [ Star true ws; Plus true w; Lit "("; Group 1 (Star false any);
        Lit ")"; Star true ws; Lits "as"; Star true ws;
        Group 2 (Plus true w) ].

(** "\w+\((.*?)\)" *)
Definition agg_inner : regex :=
  Seq [ Plus true w; Lit "("; Group 1 (Star false any); Lit ")" ].

(** "(\w+)" *)
Definition verb : regex := Group 1 (Plus true w).

(** "\b(\w+)=" *)
Definition key_eq : regex := Seq [ WordB; Group 1 (Plus true w); Lit "=" ].

(** "\b(\w+)\b" *)
Definition word : regex := Seq [ WordB; Group 1 (Plus true w); WordB ].

End Pattern.

(** Unpacking a tuple into two or three names raises [ValueError] on any
    other length; a method called on [None] raises [AttributeError]; the
    first item of an empty list raises [IndexError]. *)
Definition unpack2 {A} (t : list A) : result (A * A) :=
  match t with
  | [a; b] => Ok (a, b)
  | _ => Raise ValueError
  end.

Definition unpack3 {A} (t : list A) : result (A * A * A) :=
  match t with
  | [a; b; c] => Ok (a, b, c)
  | _ => Raise ValueError
  end.

Definition not_none {A} (o : option A) : result A :=
  match o with
  | Some a => Ok a
  | None => Raise AttributeError
  end.

Definition item0 {A} (l : list A) : result A :=
  match l with
  | a :: _ => Ok a
  | [] => Raise IndexError
  end.

Definition extract_fields_from_rename (command : string)
  : result (list (string * string)) :=
  let matches := Re.findall_tuples true Pattern.rename 3 command in
  for_each matches (fun m =>
    '(old_field, new_field, _) ← unpack3 m;
    Ok [(strip old_field, strip new_field)]).

Definition extract_fields_from_eval (command : string)
  : result (list string) :=
  let matches := Re.findall true Pattern.eval command in
  for_each matches (fun m => Ok [strip m]).

Definition extract_fields_from_stats (command : string)
  : result (list string) :=
  let matches := Re.findall_tuples true Pattern.stats 2 command in
  for_each matches (fun m =>
    '(agg_fields, by_fields) ← unpack2 m;
    let agg_parts := split "," agg_fields in
    aggs ← for_each agg_parts (fun part =>
      match Re.re_match true Pattern.agg_alias (strip part) with
      | Some agg_match =>
          '(_, alias) ← unpack2 (Re.groups 2 agg_match);
          alias ← not_none alias;
          Ok [strip alias]
      | None =>
          let agg_inner := Re.findall false Pattern.agg_inner part in
          match agg_inner with
          | [] => Ok []
          | _ => inner ← item0 agg_inner; Ok [strip inner]
          end
      end);
    let by_parts := split "," by_fields in
    Ok (aggs ++ map strip by_parts)%list).

Definition extract_fields_from_lookup (command : string)
  : result (list string) :=
  let matches := Re.findall_tuples true Pattern.lookup 3 command in
  for_each matches (fun m =>
    '(lookup_table, input_fields, output_fields) ← unpack3 m;
    let input_fields := map strip (split "," input_fields) in
    let output_fields := map strip (split "," output_fields) in
    Ok (input_fields ++ output_fields)%list).

(** [fields_usage]: a [defaultdict(set)] read at the keys ['renamed'],
    ['created'] and ['used']; a key never written reads as the empty set. *)
Record usage := Usage {
  renamed : gset string;
  created : gset string;
  used : gset string
}.

Definition no_usage : usage := Usage ∅ ∅ ∅.

Definition add_renamed (fu : usage) (f : string) : usage :=
  Usage ({[f]} ∪ renamed fu) (created fu) (used fu).
Definition add_created (fu : usage) (f : string) : usage :=
  Usage (renamed fu) ({[f]} ∪ created fu) (used fu).
Definition add_used (fu : usage) (f : string) : usage :=
  Usage (renamed fu) (created fu) ({[f]} ∪ used fu).

(** The commands of a query: the stripped pieces between the pipes, the
    empty ones dropped. *)
Definition commands (search_query : string) : list string :=
  filter (fun cmd => cmd ≠ "") (map strip (split "|" search_query)).

Definition fallback_verbs : list string :=
  ["search"; "where"; "table"; "fields"; "fillnull"; "coalesce"].

(** The body of the loop over the commands. *)
Definition parse_command (fields_usage : usage) (cmd : string)
  : result usage :=
  match Re.re_match false Pattern.verb cmd with
  | None => Ok fields_usage
  | Some cmd_type_match =>
      name ← not_none (Re.group cmd_type_match 1);
      let cmd_type := lower name in
      if String.eqb cmd_type "rename" then
        renamed_fields ← extract_fields_from_rename cmd;
        Ok (foldl (fun fu '(old, new) => add_renamed fu new)
                  fields_usage renamed_fields)
      else if String.eqb cmd_type "eval" then
        eval_fields ← extract_fields_from_eval cmd;
        Ok (foldl add_created fields_usage eval_fields)
      else if String.eqb cmd_type "stats" then
        stats_fields ← extract_fields_from_stats cmd;
        Ok (foldl add_used fields_usage stats_fields)
      else if String.eqb cmd_type "lookup" then
        lookup_fields ← extract_fields_from_lookup cmd;
        Ok (foldl add_used fields_usage lookup_fields)
      else if bool_decide (cmd_type ∈ fallback_verbs) then
        let used_fields := Re.findall false Pattern.key_eq cmd in
        let used_fields :=
          match used_fields with
          | [] => Re.findall false Pattern.word cmd
          | _ => used_fields
          end in
        Ok (foldl add_used fields_usage used_fields)
      else Ok fields_usage
  end.

Fixpoint parse_commands (fields_usage : usage) (cmds : list string)
  : result usage :=
  match cmds with
  | [] => Ok fields_usage
  | cmd :: cmds' =>
      fields_usage ← parse_command fields_usage cmd;
      parse_commands fields_usage cmds'
  end.

Definition parse_search_query (search_query : string) : result usage :=
  parse_commands no_usage (commands search_query).

Record violation := Violation {
  field : string;
  issue : string;
  suggestion : string
}.

(** [field in mappings] for one source of the table. *)
Definition has_key (f : string) (mappings : list (string * string)) : bool :=
  bool_decide (f ∈ map fst mappings).

(** The union of the sets of the usage record.  The loop over it visits
    every field once; the order of a Python set is not specified, here it
    is the order of [elements]. *)
Definition all_fields_of (fields_usage : usage) : gset string :=
  renamed fields_usage ∪ created fields_usage ∪ used fields_usage.

Definition check_field (f : string) : list violation :=
  if bool_decide (f ∈ ALL_CIM_FIELDS) then []
  else
    let mapped := existsb (fun sm => has_key f sm.2) CIM_FIELD_MAPPINGS in
    if mapped then []
    else [ Violation f "Field is not CIM-compliant."
             "Map the field to a CIM-compliant field or use field aliases to conform to CIM." ].

Definition check_cim_compliance (search_name search_query : string)
  : result (list violation) :=
  fields_usage ← parse_search_query search_query;
  let all_fields := all_fields_of fields_usage in
  Ok (flat_map check_field (elements all_fields)).

(** [aliases[cim_field].append(custom_field)] on a [defaultdict(list)]: a
    new key goes last. *)
Fixpoint append_at (k v : string) (d : list (string * list string))
  : list (string * list string) :=
  match d with
  | [] => [(k, [v])]
  | (k', vs) :: d' =>
      if String.eqb k k' then (k', vs ++ [v])%list :: d'
      else (k', vs) :: append_at k v d'
  end.

Definition get_field_aliases_of (table : list (string * list (string * string)))
  : list (string * list string) :=
  foldl (fun aliases sm =>
           foldl (fun aliases cc => append_at cc.2 cc.1 aliases) aliases sm.2)
        [] table.

Definition get_field_aliases : list (string * list string) :=
  get_field_aliases_of CIM_FIELD_MAPPINGS.

Definition suggest_alias_of (aliases : list (string * list string))
    (f : string) : list string :=
  flat_map (fun ac =>
              if bool_decide (lower f ∈ map lower ac.2) then [ac.1] else [])
           aliases.

Definition suggest_alias (f : string) : list string :=
  suggest_alias_of get_field_aliases f.

(** * The modules [formatter] and [best_practices] *)

(** ** More of the [re] module *)

(** [re.search] and [pattern.search]: the leftmost match. *)
Fixpoint search_from (ic : bool) (r : Re.regex) (pv : option ascii)
    (s : string) : option Re.mstate :=
  match Re.match_here ic r false pv s with
  | Some m => Some m
  | None =>
      match s with
      | String c s' => search_from ic r (Some c) s'
      | "" => None
      end
  end.

Definition re_search (ic : bool) (r : Re.regex) (s : string)
  : option Re.mstate :=
  search_from ic r None s.

(** [findall] of a pattern without a group: the text of every match, which
    is the group 0 of the match. *)
Definition findall_whole (ic : bool) (r : Re.regex) (s : string)
  : list string :=
  map (fun m => default "" (Re.group m 0))
      (Re.scan ic (Re.Group 0 r) None s 0).

(** ** The module [formatter] *)

Definition newline : string := String "010" "".

(** [sep.join(l)] *)
Fixpoint join (sep : string) (l : list string) : string :=
  match l with
  | [] => ""
  | x :: l' =>
      match l' with
      | [] => x
      | _ => x ++ sep ++ join sep l'
      end
  end.

Definition format_search (search_query : string) : result string :=
  let lines := split "|" search_query in
  first_line ← item0 lines;
  let formatted_lines :=
    strip first_line :: map (fun line => "  | " ++ strip line) (tail lines) in
  Ok (join newline formatted_lines).

(** ** The module [best_practices] *)

Module Practice.
Import Re.

Definition ws := Char.isspace.
Definition w := Char.isword.
Definition any := Char.notnl.

(** The class "[^\\]": anything but a backslash. *)
Definition not_backslash (c : ascii) : bool := negb (Char.at_code 92 c).

(** The class "[a-zA-Z0-9_]". *)
Definition macro_char (c : ascii) : bool :=
  Char.between 97 122 c || Char.between 65 90 c || Char.between 48 57 c
  || Char.at_code 95 c.

(** "[^\\]\*\w+" *)
Definition no_leading_wildcard : regex :=
  Pattern.Seq [ Cls not_backslash; Lit "*"; Plus true w ].

(** "index=", searched with [re.IGNORECASE] by [check_explicit_index] *)
Definition index_eq : regex := Lits "index=".

(** "earliest\s*=\s*|latest\s*=\s*", with [re.IGNORECASE] *)
Definition time_range : regex :=
  Alt (Pattern.Seq [ Lits "earliest"; Star true ws; Lit "="; Star true ws ])
      (Pattern.Seq [ Lits "latest"; Star true ws; Lit "="; Star true ws ]).

(** "\bselect\s+\*", with [re.IGNORECASE] *)
Definition limit_field_selection : regex :=
  Pattern.Seq [ WordB; Lits "select"; Plus true ws; Lit "*" ].

(** "\bjoin\b\s+\[.*\]", with [re.IGNORECASE] *)
Definition optimize_join_usage : regex :=
  Pattern.Seq [ WordB; Lits "join"; WordB; Plus true ws; Lit "[";
                Star true any; Lit "]" ].

(** "\bstats\b", with [re.IGNORECASE] *)
Definition prefer_tstats : regex :=
  Pattern.Seq [ WordB; Lits "stats"; WordB ].

(** "\| where 1=1|\| search .*", with [re.IGNORECASE] *)
Definition avoid_unnecessary_commands : regex :=
  Alt (Lits "| where 1=1") (Pattern.Seq [ Lits "| search "; Star true any ]).

(** "\[.*?\]", with [re.IGNORECASE] *)
Definition use_lookups_over_subsearches : regex :=
  Pattern.Seq [ Lit "["; Star false any; Lit "]" ].

(** "regex\s+\w+\s*=\s*/.*/" *)
Definition efficient_regex_usage : regex :=
  Pattern.Seq [ Lits "regex"; Plus true ws; Plus true w; Star true ws;
                Lit "="; Star true ws; Lit "/"; Star true any; Lit "/" ].

(** A backquote, "[a-zA-Z0-9_]+" and a backquote *)
Definition leverage_macros_saved_searches : regex :=
  Pattern.Seq [ Lit "`"; Plus true macro_char; Lit "`" ].

End Practice.

(** The descriptions of [BEST_PRACTICES].  The patterns of the entries
    [explicit_index] and [early_time_range] are bound by the table and never
    matched against a query. *)
Module Description.
Definition no_leading_wildcard : string :=
  "Avoid using wildcards (*) at the beginning of search terms.".
Definition explicit_index : string :=
  "Specify the index explicitly in your search to improve performance.".
Definition early_time_range : string :=
  "Specify the time range early in your search to limit data processing.".
Definition limit_field_selection : string :=
  "Avoid using '*' to select all fields; specify only the necessary fields.".
Definition optimize_join_usage : string :=
  "Evaluate if 'join' is necessary; consider using 'lookup' or other commands for better performance.".
Definition prefer_tstats : string :=
  "Consider using 'tstats' instead of 'stats' for faster statistical operations when applicable.".
Definition avoid_unnecessary_commands : string :=
  "Remove unnecessary commands that do not affect the search results.".
Definition use_lookups_over_subsearches : string :=
  "Replace subsearches with lookup tables where possible to enhance performance.".
Definition efficient_regex_usage : string :=
  "Ensure regular expressions are efficient and not overly complex to avoid performance issues.".
Definition leverage_macros_saved_searches : string :=
  "Use macros or saved searches to reuse common search patterns and improve maintainability.".
End Description.

(** [if re.search(...)]: a match object is true, [None] is false. *)
Definition found (m : option Re.mstate) : bool :=
  match m with
  | Some _ => true
  | None => false
  end.

Definition check_no_leading_wildcard (search_query : string) : list string :=
  let matches := findall_whole false Practice.no_leading_wildcard search_query in
  flat_map (fun m => if String.prefix "*" m
                     then [Description.no_leading_wildcard] else [])
           matches.

Definition check_explicit_index (search_query : string) : list string :=
  if negb (found (re_search true Practice.index_eq search_query))
  then [Description.explicit_index] else [].

Definition check_early_time_range (search_query : string) : list string :=
  if negb (found (re_search true Practice.time_range search_query))
  then [Description.early_time_range] else [].

Definition check_limit_field_selection (search_query : string)
  : list string :=
  if found (re_search true Practice.limit_field_selection search_query)
  then [Description.limit_field_selection] else [].

Definition check_optimize_join_usage (search_query : string) : list string :=
  if found (re_search true Practice.optimize_join_usage search_query)
  then [Description.optimize_join_usage] else [].

Definition check_prefer_tstats (search_query : string) : list string :=
  if found (re_search true Practice.prefer_tstats search_query)
  then [Description.prefer_tstats] else [].

Definition check_avoid_unnecessary_commands (search_query : string)
  : list string :=
  let matches :=
    findall_whole true Practice.avoid_unnecessary_commands search_query in
  flat_map (fun _ => [Description.avoid_unnecessary_commands]) matches.

Definition check_use_lookups_over_subsearches (search_query : string)
  : list string :=
  let matches :=
    findall_whole true Practice.use_lookups_over_subsearches search_query in
  flat_map (fun _ => [Description.use_lookups_over_subsearches]) matches.

Definition check_efficient_regex_usage (search_query : string)
  : list string :=
  let matches :=
    findall_whole false Practice.efficient_regex_usage search_query in
  flat_map (fun m => if Nat.ltb 100 (String.length m)
                     then [Description.efficient_regex_usage] else [])
           matches.

(** The test [if not matches] is made inside the loop over [matches]. *)
Definition check_leverage_macros_saved_searches (search_query : string)
  : list string :=
  let matches :=
    findall_whole false Practice.leverage_macros_saved_searches search_query in
  flat_map (fun _ => match matches with
                     | [] => [Description.leverage_macros_saved_searches]
                     | _ => []
                     end)
           matches.

Definition check_best_practices (search_name search_query : string)
  : list string :=
  (check_no_leading_wildcard search_query
   ++ check_explicit_index search_query
   ++ check_early_time_range search_query
   ++ check_limit_field_selection search_query
   ++ check_optimize_join_usage search_query
   ++ check_prefer_tstats search_query
   ++ check_avoid_unnecessary_commands search_query
   ++ check_use_lookups_over_subsearches search_query
   ++ check_efficient_regex_usage search_query
   ++ check_leverage_macros_saved_searches search_query)%list.

(** * Specification vocabulary *)

(** ** Strings *)

Fixpoint all_chars (p : ascii → bool) (s : string) : bool :=
  match s with
  | "" => true
  | String c s' => p c && all_chars p s'
  end.

Definition starts_with (p : ascii → bool) (s : string) : bool :=
  match s with
  | String c _ => p c
  | "" => false
  end.

(** A field name: a non-empty run of word characters. *)
Definition is_name (s : string) : bool :=
  negb (String.eqb s "") && all_chars Char.isword s.

Definition no_pipe (s : string) : bool :=
  all_chars (fun c => negb (Ascii.eqb c "|")) s.

Definition is_eq (c : ascii) : bool := Ascii.eqb c "=".

(** The character before the position once [w] has been read. *)
Fixpoint after (pv : option ascii) (w : string) : option ascii :=
  match w with
  | "" => pv
  | String c w' => after (Some c) w'
  end.

(** The previous character is a word character. *)
Definition word_before (pv : option ascii) : bool :=
  match pv with
  | Some c => Char.isword c
  | None => false
  end.

(** [kw] is a prefix of [s], letter case apart. *)
Fixpoint has_prefix_ci (kw s : string) : bool :=
  match kw, s with
  | "", _ => true
  | String c kw', String a s' => Re.lit_eq true c a && has_prefix_ci kw' s'
  | String _ _, "" => false
  end.

(** [kw] occurs in [s], letter case apart. *)
Fixpoint mentions_ci (kw s : string) : bool :=
  has_prefix_ci kw s ||
  match s with
  | "" => false
  | String _ s' => mentions_ci kw s'
  end.

(** ** Matching *)

(** The continuation [k] cannot start on a character of class [q]. *)
Definition refuses {A} (q : ascii → bool) (g : list (nat * string))
    (k : Re.mstate → option A) : Prop :=
  ∀ pv a s, q a = true → k (Re.MState pv (String a s) g) = None.

(** Group [i] takes part in every match of [r]. *)
Fixpoint defines (i : nat) (r : Re.regex) : bool :=
  match r with
  | Re.Group j r' => Nat.eqb i j || defines i r'
  | Re.Cat r1 r2 => defines i r1 || defines i r2
  | Re.Alt r1 r2 => defines i r1 && defines i r2
  | _ => false
  end.

(** The groups set at [st] stay set at [st'], and so do those of [b]. *)
Definition keeps (b : nat → bool) (st st' : Re.mstate) : Prop :=
  ∀ i, b i = true ∨ is_Some (Re.group st i) → is_Some (Re.group st' i).

Definition group1 (m : Re.mstate) : string := default "" (Re.group m 1).

(** ** Tokens *)

(** What a run in progress contributes when it ends. *)
Definition flush (cur : string) : list string :=
  match cur with
  | "" => []
  | _ => [cur]
  end.

(** The maximal runs of word characters of [s], after the run [cur] read so
    far. *)
Fixpoint tokens_from (cur s : string) : list string :=
  match s with
  | "" => flush cur
  | String c s' =>
      if Char.isword c then tokens_from (cur ++ String c "") s'
      else (flush cur ++ tokens_from "" s')%list
  end.

Definition word_tokens (s : string) : list string := tokens_from "" s.

(** The maximal runs of word characters that an equals sign follows. *)
Fixpoint keys_from (cur s : string) : list string :=
  match s with
  | "" => []
  | String c s' =>
      if Char.isword c then keys_from (cur ++ String c "") s'
      else ((if is_eq c then flush cur else []) ++ keys_from "" s')%list
  end.

Definition keys_before_eq (s : string) : list string := keys_from "" s.

(** The fallback extractor in words: the word tokens right before an equals
    sign, or every word token when there is none. *)
Definition fallback_fields (cmd : string) : list string :=
  match keys_before_eq cmd with
  | [] => word_tokens cmd
  | keys => keys
  end.

Definition recognized_verbs : list string :=
  ["rename"; "eval"; "stats"; "lookup"].

(** ** Stages *)

Definition stats_stage (x y z : string) : string :=
  "stats count(" ++ x ++ ") as " ++ y ++ " by " ++ z.

Definition lookup_stage (T in1 in2 out1 out2 : string) : string :=
  "lookup " ++ T ++ " " ++ in1 ++ ", " ++ in2 ++ " OUTPUT "
  ++ out1 ++ ", " ++ out2.

Definition rename_stage (a kw b : string) : string :=
  "rename " ++ a ++ " " ++ kw ++ " " ++ b.

Definition eval_stage (f expr : string) : string :=
  "eval " ++ f ++ " = " ++ expr.

(** ** Compliance *)

(** [c] is a target of some mapping of the table. *)
Definition canonical (table : list (string * list (string * string)))
    (c : string) : Prop :=
  ∃ source mappings k, (source, mappings) ∈ table ∧ (k, c) ∈ mappings.

(** [k] is a custom-field key of some mapping of the table. *)
Definition custom_key (table : list (string * list (string * string)))
    (k : string) : Prop :=
  ∃ source mappings c, (source, mappings) ∈ table ∧ (k, c) ∈ mappings.

(** The test of the compliance loop on one field. *)
Definition violating (f : string) : bool :=
  negb (bool_decide (f ∈ ALL_CIM_FIELDS))
  && negb (existsb (fun sm => has_key f sm.2) CIM_FIELD_MAPPINGS).

(** ** Alias suggestions *)

(** The first occurrence of every element, in order. *)
Fixpoint dedup (l : list string) : list string :=
  match l with
  | [] => []
  | x :: l' => x :: filter (fun y => y ≠ x) (dedup l')
  end.

(** The custom-field keys of every source, in the order of the table. *)
Definition pairs_of (table : list (string * list (string * string)))
  : list (string * string) :=
  flat_map snd table.

(** [kc] is a key of the table that matches [f], letter case apart. *)
Definition key_matches (f : string) (kc : string * string) : bool :=
  String.eqb (lower kc.1) (lower f).

(** The scan of the specification: every key that matches gives its
    canonical name; duplicates are dropped, the first one is kept. *)
Definition suggestAliases (table : list (string * list (string * string)))
    (f : string) : list string :=
  dedup (flat_map (fun kc => if key_matches f kc then [kc.2] else [])
                  (pairs_of table)).

(** The alias index and the pairs of the table with lower-case keys. *)
Definition lowered_aliases (aliases : list (string * list string))
  : list (string * list string) :=
  map (fun ac => (ac.1, map lower ac.2)) aliases.

Definition lowered_pairs (l : list (string * string))
  : list (string * string) :=
  map (fun kc => (lower kc.1, kc.2)) l.

(** ** More vocabulary *)

(** The union of two usage records, set by set. *)
Definition usage_union (a b : usage) : usage :=
  Usage (renamed a ∪ renamed b) (created a ∪ created b) (used a ∪ used b).

(** Nothing but white space and pipes. *)
Definition blank (s : string) : bool :=
  all_chars (fun c => Char.isspace c || Ascii.eqb c "|") s.

(** The custom fields listed under the canonical name [c] in an alias
    index. *)
Definition listed (aliases : list (string * list string)) (c k : string)
  : Prop :=
  ∃ ks, (c, ks) ∈ aliases ∧ k ∈ ks.

(** [kw] occurs in [s], letter case counted. *)
Fixpoint has_prefix (kw s : string) : bool :=
  match kw, s with
  | "", _ => true
  | String c kw', String a s' => Ascii.eqb a c && has_prefix kw' s'
  | String _ _, "" => false
  end.

Fixpoint occurs (kw s : string) : bool :=
  has_prefix kw s ||
  match s with
  | "" => false
  | String _ s' => occurs kw s'
  end.

(** The number of pipes of a text. *)
Fixpoint count_pipes (s : string) : nat :=
  match s with
  | "" => 0
  | String c s' => (if Ascii.eqb c "|" then 1 else 0) + count_pipes s'
  end.

(** What one command contributes to the usage record. *)
Definition stage_usage (cmd : string) : usage :=
  match parse_command no_usage cmd with
  | Ok d => d
  | Raise _ => no_usage
  end.

(** One usage record within another, set by set. *)
Definition usage_within (a b : usage) : Prop :=
  renamed a ⊆ renamed b ∧ created a ⊆ created b ∧ used a ⊆ used b.

(** The word [kw], letter case apart. *)
Definition is_word_ci (kw w : string) : bool := String.eqb (lower w) kw.

(** A Python [str] all of whose code points are below 256: the strings of
    this development.  On such a string a pattern compiled with
    [re.IGNORECASE] matches a letter of the pattern against its two cases
    and nothing else, which is [Re.lit_eq].  Outside this range the engine
    knows further equivalents of ASCII letters (the dotless and the dotted
    capital [i] of code points 305 and 304, the long [s] of code point 383,
    the Kelvin sign of code point 8490): the properties of the checks that
    search with that flag are stated for the queries of this type and say
    nothing of a query with a character beyond it. *)
Definition latin1_str : Type := string.

(** What follows the prefix [kw] of [s], letter case apart. *)
Fixpoint after_prefix_ci (kw s : string) : option string :=
  match kw, s with
  | "", _ => Some s
  | String c kw', String a s' =>
      if Re.lit_eq true c a then after_prefix_ci kw' s' else None
  | String _ _, "" => None
  end.

(** [s] starts with [kw], optional white space and an equals sign. *)
Definition assigns (kw s : string) : bool :=
  match after_prefix_ci kw s with
  | Some r => starts_with is_eq (lstrip r)
  | None => false
  end.

(** [P] holds of [s] from some position on. *)
Fixpoint anywhere (P : string → bool) (s : string) : bool :=
  P s ||
  match s with
  | "" => false
  | String _ s' => anywhere P s'
  end.

(** The bracket pairs of a text, read once from left to right: an opening
    bracket waits for the next closing bracket of its line. *)
Fixpoint bracket_pairs (opened : bool) (s : string) : nat :=
  match s with
  | "" => 0
  | String c s' =>
      if opened then
        if Ascii.eqb c "]" then S (bracket_pairs false s')
        else if Char.notnl c then bracket_pairs true s'
        else bracket_pairs false s'
      else if Ascii.eqb c "[" then bracket_pairs true s'
      else bracket_pairs false s'
  end.

(** What follows the first closing bracket of the line. *)
Fixpoint closing (s : string) : option string :=
  match s with
  | "" => None
  | String c s' =>
      if Ascii.eqb c "]" then Some s'
      else if Char.notnl c then closing s' else None
  end.

(** * Proof toolkit *)

(** A fact on all 256 characters, by enumeration. *)
Ltac by_char c :=
  destruct c as [[] [] [] [] [] [] [] []]; vm_compute;
  try reflexivity; try discriminate; auto.

(** Evaluation of a test on a character that is known. *)
Ltac eval_test t :=
  let b := eval vm_compute in t in
  lazymatch b with
  | true => change t with true
  | false => change t with false
  end.

Ltac re_tests :=
  repeat match goal with
  | |- context [Re.lit_eq ?ic ?c ?a] => eval_test (Re.lit_eq ic c a)
  | |- context [Char.isspace ?a] => eval_test (Char.isspace a)
  | |- context [Char.isword ?a] => eval_test (Char.isword a)
  | |- context [Char.notnl ?a] => eval_test (Char.notnl a)
  end.


(** * Lemmas *)

(** ** Facts on characters *)

Lemma word_not_space c : Char.isword c = true → Char.isspace c = false.
Proof. by_char c. Qed.
Lemma word_not_nl c : Char.isword c = true → Char.notnl c = true.
Proof. by_char c. Qed.

(** ** Facts on strings *)

Lemma sapp_cons c s t : String c s ++ t = String c (s ++ t).
Proof. reflexivity. Qed.
Lemma sapp_nil_l t : "" ++ t = t.
Proof. reflexivity. Qed.
Lemma sapp_nil_r s : s ++ "" = s.
Proof. induction s; [done | by rewrite sapp_cons, IHs]. Qed.
Lemma sapp_assoc s t u : (s ++ t) ++ u = s ++ t ++ u.
Proof. induction s; [done | by rewrite !sapp_cons, IHs]. Qed.
Lemma slength_app s t :
  String.length (s ++ t) = String.length s + String.length t.
Proof. induction s; [done | rewrite sapp_cons; simpl; lia]. Qed.

Lemma all_chars_app p s t :
  all_chars p (s ++ t) = all_chars p s && all_chars p t.
Proof.
  induction s as [|c s IH]; [done|].
  rewrite sapp_cons. simpl. by rewrite IH, andb_assoc.
Qed.

Lemma all_chars_impl (p q : ascii → bool) s :
  (∀ c, p c = true → q c = true) →
  all_chars p s = true → all_chars q s = true.
Proof.
  intros Hpq. induction s as [|c s IH]; [done|]. simpl.
  intros [Hc Hs]%andb_true_iff. by rewrite (Hpq _ Hc), IH.
Qed.

Lemma taken_app w s : Re.taken (w ++ s) s = w.
Proof.
  unfold Re.taken, Re.consumed. rewrite slength_app.
  replace (String.length w + String.length s - String.length s)
    with (String.length w) by lia.
  induction w as [|c w IH]; [by destruct s|].
  rewrite sapp_cons. simpl. by rewrite IH.
Qed.

Lemma taken_eq from to w : from = w ++ to → Re.taken from to = w.
Proof. intros ->. apply taken_app. Qed.

Lemma consumed_app w s : Re.consumed (w ++ s) s = String.length w.
Proof. unfold Re.consumed. rewrite slength_app. lia. Qed.

(** ** Repetition over a run of characters *)

Section Runs.
Context {A : Type}.
Implicit Types (k : Re.mstate → option A).

Lemma star_lazy_skip p q w pv s g k :
  all_chars p w = true → all_chars q w = true → refuses q g k →
  Re.star_lazy p pv (w ++ s) g k = Re.star_lazy p (after pv w) s g k.
Proof.
  intros Hp Hq Hk. revert pv Hp Hq.
  induction w as [|c w IH]; intros pv Hp Hq; [done|].
  simpl in Hp, Hq. apply andb_true_iff in Hp as [Hc Hp].
  apply andb_true_iff in Hq as [Hc' Hq].
  rewrite sapp_cons. simpl. rewrite (Hk _ _ _ Hc'), Hc. by apply IH.
Qed.

Lemma star_greedy_stop p pv s g k :
  starts_with p s = false →
  Re.star_greedy p pv s g k = k (Re.MState pv s g).
Proof. destruct s as [|c s]; [done|]. simpl. by intros ->. Qed.

Lemma star_greedy_all p w pv s g k r :
  all_chars p w = true → starts_with p s = false →
  k (Re.MState (after pv w) s g) = Some r →
  Re.star_greedy p pv (w ++ s) g k = Some r.
Proof.
  intros Hp Hs. revert pv Hp.
  induction w as [|c w IH]; intros pv Hp Hr.
  - rewrite sapp_nil_l, star_greedy_stop; done.
  - simpl in Hp. apply andb_true_iff in Hp as [Hc Hp].
    rewrite sapp_cons. simpl. rewrite Hc. by rewrite (IH (Some c)).
Qed.

Lemma star_greedy_skip p q w pv s g k :
  all_chars p w = true → all_chars q w = true →
  starts_with p s = false → refuses q g k →
  Re.star_greedy p pv (w ++ s) g k = k (Re.MState (after pv w) s g).
Proof.
  intros Hp Hq Hs Hk. revert pv Hp Hq.
  induction w as [|c w IH]; intros pv Hp Hq.
  - rewrite sapp_nil_l, star_greedy_stop; done.
  - simpl in Hp, Hq. apply andb_true_iff in Hp as [Hc Hp].
    apply andb_true_iff in Hq as [Hc' Hq].
    rewrite sapp_cons. simpl. rewrite Hc, (IH (Some c)) by done.
    destruct (k _) eqn:E; [done|]. by apply Hk.
Qed.
End Runs.

Lemma taken_all w : Re.taken w "" = w.
Proof. apply taken_eq. by rewrite sapp_nil_r. Qed.

(** ** Words and letter case *)

Lemma lower_isword c : Char.isword (Char.lower c) = Char.isword c.
Proof. by_char c. Qed.

Lemma lit_eq_isword ic c a :
  Re.lit_eq ic c a = true → Char.isword a = Char.isword c.
Proof.
  unfold Re.lit_eq. destruct ic; intros H%Ascii.eqb_eq.
  - by rewrite <- (lower_isword a), H, lower_isword.
  - by subst.
Qed.

Lemma lit_eq_lower c a :
  Re.lit_eq true c a = true → Char.lower a = Char.lower c.
Proof. unfold Re.lit_eq. by intros H%Ascii.eqb_eq. Qed.

Lemma is_name_inv s :
  is_name s = true →
  ∃ c s', s = String c s' ∧ Char.isword c = true
          ∧ all_chars Char.isword s' = true.
Proof.
  destruct s as [|c s]; [done|]. unfold is_name. simpl.
  intros [Hc Hs]%andb_true_iff. eauto.
Qed.

Lemma is_name_all s : is_name s = true → all_chars Char.isword s = true.
Proof. unfold is_name. by intros [_ ?]%andb_true_iff. Qed.

Lemma name_starts (p : ascii → bool) w s :
  (∀ c, Char.isword c = true → p c = false) →
  is_name w = true → starts_with p (w ++ s) = false.
Proof. intros Hp (c & w' & -> & Hc & _)%is_name_inv. simpl. auto. Qed.

Section Literals.
Context {A : Type}.
Implicit Types (k : Re.mstate → option A).

Lemma rmatch_Lits_nil ic st k : Re.rmatch ic (Re.Lits "") st k = k st.
Proof. reflexivity. Qed.

Lemma rmatch_Lits_cons ic c kw pv a s g k :
  Re.rmatch ic (Re.Lits (String c kw)) (Re.MState pv (String a s) g) k
  = if Re.lit_eq ic c a
    then Re.rmatch ic (Re.Lits kw) (Re.MState (Some a) s g) k else None.
Proof. reflexivity. Qed.

Lemma rmatch_Lits_end ic c kw pv g k :
  Re.rmatch ic (Re.Lits (String c kw)) (Re.MState pv "" g) k = None.
Proof. reflexivity. Qed.

(** A keyword does not match on a word that differs from it when what
    follows the keyword cannot start inside a word. *)
Lemma Lits_word_fails kw y pv s g k :
  all_chars Char.isword kw = true → all_chars Char.isword y = true →
  starts_with Char.isword s = false → refuses Char.isword g k →
  lower y ≠ lower kw →
  Re.rmatch true (Re.Lits kw) (Re.MState pv (y ++ s) g) k = None.
Proof.
  intros Hkw Hy Hs Hk. revert y pv Hy.
  induction kw as [|c kw IH]; intros y pv Hy Hne.
  - destruct y as [|a y]; [done|]. simpl in Hy.
    apply andb_true_iff in Hy as [Ha _]. rewrite rmatch_Lits_nil, sapp_cons.
    by apply Hk.
  - simpl in Hkw. apply andb_true_iff in Hkw as [Hc Hkw].
    destruct y as [|a y].
    + rewrite sapp_nil_l. destruct s as [|a s]; [done|].
      rewrite rmatch_Lits_cons. destruct (Re.lit_eq true c a) eqn:E; [|done].
      apply lit_eq_isword in E. simpl in Hs. congruence.
    + simpl in Hy. apply andb_true_iff in Hy as [Ha Hy].
      rewrite sapp_cons, rmatch_Lits_cons.
      destruct (Re.lit_eq true c a) eqn:E; [|done].
      apply IH; [done..|]. intros Heq. apply Hne. simpl.
      by rewrite (lit_eq_lower _ _ E), Heq.
Qed.
End Literals.

Section Sequences.
Context {A : Type}.
Implicit Types (k : Re.mstate → option A).

Lemma rmatch_Seq_nil ic st k : Re.rmatch ic (Pattern.Seq []) st k = k st.
Proof. reflexivity. Qed.

Lemma rmatch_Seq_cons ic r rs st k :
  Re.rmatch ic (Pattern.Seq (r :: rs)) st k
  = Re.rmatch ic r st (fun st' => Re.rmatch ic (Pattern.Seq rs) st' k).
Proof. reflexivity. Qed.

Lemma star_greedy_end p w pv g k r :
  all_chars p w = true →
  k (Re.MState (after pv w) "" g) = Some r →
  Re.star_greedy p pv w g k = Some r.
Proof.
  intros Hp Hr. rewrite <- (sapp_nil_r w). by eapply star_greedy_all.
Qed.
End Sequences.

(** Strings as right-nested appends, and the matcher run over the part of
    the text that is known; the tail of a sequence stays folded. *)
Ltac str_norm :=
  repeat (rewrite sapp_assoc || rewrite sapp_cons || rewrite sapp_nil_l).

Ltac re_step :=
  repeat (progress (
    rewrite ?rmatch_Seq_cons, ?rmatch_Seq_nil, ?rmatch_Lits_cons,
            ?rmatch_Lits_nil, ?rmatch_Lits_end;
    cbn [Re.rmatch Re.Plus Re.Opt Re.rest Re.prev Re.caps Re.step
         Re.set_group Re.star_lazy Re.star_greedy andb];
    re_tests; cbv iota)).

(** ** Field names in the text *)

Lemma name_notnl w : is_name w = true → all_chars Char.notnl w = true.
Proof.
  intros Hw. eapply all_chars_impl; [apply word_not_nl | by apply is_name_all].
Qed.

Lemma name_not_space w s :
  is_name w = true → starts_with Char.isspace (w ++ s) = false.
Proof. intros Hw. by apply name_starts; [apply word_not_space|]. Qed.

Lemma name_not_space_end w :
  is_name w = true → starts_with Char.isspace w = false.
Proof. intros Hw. rewrite <- (sapp_nil_r w). by apply name_not_space. Qed.

(** A lazy group passes over the field name [w]: what comes next in the
    pattern cannot start inside a word. *)
Ltac pass_name w :=
  rewrite (star_lazy_skip _ Char.isword w);
  [ | by apply name_notnl | by apply is_name_all | ].

(** A run of spaces ends where a field name starts. *)
Ltac stop_at_name :=
  rewrite star_greedy_stop
    by first [by apply name_not_space | by apply name_not_space_end].

(** What starts with a space does not start on a word character. *)
Ltac refuse_word :=
  let Ha := fresh "Ha" in
  intros ? ? ? Ha; re_step; by rewrite (word_not_space _ Ha).




(** ** Splitting and stripping *)

Lemma word_not_comma c : Char.isword c = true → negb (Ascii.eqb c ",") = true.
Proof. by_char c. Qed.
Lemma word_not_pipe c : Char.isword c = true → negb (Ascii.eqb c "|") = true.
Proof. by_char c. Qed.

Lemma split_none sep s :
  all_chars (fun c => negb (Ascii.eqb c sep)) s = true → split sep s = [s].
Proof.
  induction s as [|c s IH]; [done|]. simpl.
  intros [Hc Hs]%andb_true_iff. apply negb_true_iff in Hc.
  by rewrite Hc, IH.
Qed.

Lemma lstrip_id s : starts_with Char.isspace s = false → lstrip s = s.
Proof. destruct s as [|c s]; [done|]. simpl. by intros ->. Qed.

Lemma rstrip_name w : is_name w = true → rstrip w = w.
Proof.
  intros (c & w' & -> & Hc & Hw)%is_name_inv. revert c Hc.
  induction w' as [|c' w' IH]; intros c Hc.
  - simpl. by rewrite (word_not_space _ Hc).
  - simpl in Hw. apply andb_true_iff in Hw as [Hc' Hw].
    change (rstrip (String c (String c' w'))) with
      (match rstrip (String c' w') with
       | "" => if Char.isspace c then "" else String c ""
       | r => String c r end).
    by rewrite (IH Hw c' Hc').
Qed.

Lemma rstrip_app_name a w : is_name w = true → rstrip (a ++ w) = a ++ w.
Proof.
  intros Hw. induction a as [|c a IH]; [by apply rstrip_name|].
  rewrite sapp_cons. simpl. rewrite IH.
  destruct (a ++ w) eqn:E; [|done].
  destruct a; [|done]. rewrite sapp_nil_l in E. by subst.
Qed.

Lemma strip_app_name a w :
  starts_with Char.isspace (a ++ w) = false → is_name w = true →
  strip (a ++ w) = a ++ w.
Proof. intros Ha Hw. unfold strip. by rewrite lstrip_id, rstrip_app_name. Qed.

Lemma strip_name w : is_name w = true → strip w = w.
Proof.
  intros Hw. rewrite <- (sapp_nil_l w). apply strip_app_name; [|done].
  rewrite sapp_nil_l, <- (sapp_nil_r w).
  by apply name_starts; [apply word_not_space|].
Qed.

(** ** The scan of [findall] *)

Lemma scan_skip ic r w s pv :
  Re.scan ic r pv (w ++ s) (String.length w) = Re.scan ic r (after pv w) s 0.
Proof.
  revert pv. induction w as [|c w IH]; intros pv; [done|].
  rewrite sapp_cons. simpl. apply IH.
Qed.

Lemma scan_hit ic r w s pv m :
  w ≠ "" → Re.match_here ic r false pv (w ++ s) = Some m →
  Re.rest m = s →
  Re.scan ic r pv (w ++ s) 0 = m :: Re.scan ic r (after pv w) s 0.
Proof.
  intros Hw Hm Hrest. destruct w as [|c w]; [done|].
  rewrite sapp_cons in *. simpl. rewrite Hm, Hrest.
  rewrite <- sapp_cons, consumed_app. simpl. by rewrite scan_skip.
Qed.

Lemma scan_hit_all ic r s pv m :
  s ≠ "" → Re.match_here ic r false pv s = Some m → Re.rest m = "" →
  Re.scan ic r pv s 0 = m :: Re.scan ic r (after pv s) "" 0.
Proof.
  intros Hs Hm Hrest. rewrite <- (sapp_nil_r s) at 1.
  apply scan_hit; [done | by rewrite sapp_nil_r | done].
Qed.

Lemma scan_end ic r pv :
  Re.match_here ic r false pv "" = None → Re.scan ic r pv "" 0 = [].
Proof. simpl. by intros ->. Qed.

(** ** The verb of a command *)

Lemma verb_match w s :
  is_name w = true → starts_with Char.isword s = false →
  Re.re_match false Pattern.verb (w ++ s)
  = Some (Re.MState (after None w) s [(1, w)]).
Proof.
  intros (c & w' & -> & Hc & Hw)%is_name_inv Hs.
  unfold Re.re_match, Re.match_here, Pattern.verb, Pattern.w.
  rewrite sapp_cons. re_step. rewrite Hc.
  erewrite star_greedy_all; [reflexivity | done | done |].
  cbn [Re.set_group Re.rest Re.prev Re.caps andb].
  by rewrite <- sapp_cons, taken_app.
Qed.

(** ** The stats stage *)

Lemma stats_match x y z :
  is_name x = true → is_name y = true → is_name z = true →
  lower y ≠ "by" →
  Re.match_here true Pattern.stats false None
    ("stats count(" ++ x ++ ") as " ++ y ++ " by " ++ z)
  = Some (Re.MState (after (Some " "%char) z) ""
            [(2, z); (1, "count(" ++ x ++ ") as " ++ y)]).
Proof.
  intros Hx Hy Hz Hby.
  unfold Re.match_here, Pattern.stats, Pattern.ws, Pattern.any.
  str_norm.
  re_step.
  pass_name x.
  2:{ refuse_word. }
  re_step.
  stop_at_name.
  re_step.
  rewrite Lits_word_fails; [| done | by apply is_name_all | done | | done].
  2:{ refuse_word. }
  re_step.
  pass_name y.
  2:{ refuse_word. }
  re_step.
  stop_at_name.
  re_step.
  erewrite star_greedy_end; [| by apply name_notnl | reflexivity].
  cbn [Re.set_group Re.rest Re.prev Re.caps]. rewrite taken_all.
  erewrite taken_eq; [reflexivity|]. by str_norm.
Qed.

Lemma stats_findall x y z :
  is_name x = true → is_name y = true → is_name z = true →
  lower y ≠ "by" →
  Re.findall_tuples true Pattern.stats 2
    ("stats count(" ++ x ++ ") as " ++ y ++ " by " ++ z)
  = [["count(" ++ x ++ ") as " ++ y; z]].
Proof.
  intros Hx Hy Hz Hby. unfold Re.findall_tuples.
  erewrite scan_hit_all; [| done | by apply stats_match | done].
  rewrite scan_end by done. reflexivity.
Qed.

Lemma lit_refuses_word ic c a :
  Char.isword c = false → Char.isword a = true → Re.lit_eq ic c a = false.
Proof.
  intros Hc Ha. destruct (Re.lit_eq ic c a) eqn:E; [|done].
  apply lit_eq_isword in E. congruence.
Qed.

Lemma agg_alias_match x y :
  is_name x = true → is_name y = true →
  Re.re_match true Pattern.agg_alias ("count(" ++ x ++ ") as " ++ y)
  = Some (Re.MState (after (Some " "%char) y) "" [(2, y); (1, x)]).
Proof.
  intros Hx Hy. pose proof Hy as Hy0.
  apply is_name_inv in Hy as (c & y' & -> & Hc & Hy').
  unfold Re.re_match, Re.match_here, Pattern.agg_alias, Pattern.ws, Pattern.w,
    Pattern.any.
  str_norm. re_step.
  pass_name x.
  2:{ intros pv a s Ha. re_step. by rewrite lit_refuses_word. }
  re_step. rewrite (word_not_space _ Hc), Hc.
  erewrite star_greedy_end; [| done | reflexivity].
  cbn [Re.set_group Re.rest Re.prev Re.caps]. rewrite taken_all.
  erewrite taken_eq; [reflexivity|]. by str_norm.
Qed.

Lemma stats_fields x y z :
  is_name x = true → is_name y = true → is_name z = true →
  lower y ≠ "by" →
  extract_fields_from_stats ("stats count(" ++ x ++ ") as " ++ y ++ " by " ++ z)
  = Ok [y; z].
Proof.
  intros Hx Hy Hz Hby. unfold extract_fields_from_stats.
  rewrite stats_findall by done.
  cbn [for_each unpack2 mbind result_bind].
  rewrite (split_none "," ("count(" ++ x ++ ") as " ++ y)).
  2:{ rewrite !all_chars_app,
        (all_chars_impl _ _ _ word_not_comma (is_name_all _ Hx)),
        (all_chars_impl _ _ _ word_not_comma (is_name_all _ Hy)). done. }
  rewrite (split_none "," z)
    by exact (all_chars_impl _ _ _ word_not_comma (is_name_all _ Hz)).
  cbn [for_each mbind result_bind].
  replace (strip ("count(" ++ x ++ ") as " ++ y))
    with ("count(" ++ x ++ ") as " ++ y).
  2:{ symmetry. rewrite <- !sapp_assoc. by apply strip_app_name. }
  rewrite agg_alias_match by done.
  cbn. by rewrite !strip_name.
Qed.

(** ** The lookup stage *)

Lemma lower_app s t : lower (s ++ t) = lower s ++ lower t.
Proof.
  induction s as [|c s IH]; [done|]. rewrite sapp_cons. simpl. by rewrite IH.
Qed.

Section Keywords.
Context {A : Type}.
Implicit Types (k : Re.mstate → option A).

(** A keyword on a word: it can only match a prefix of the word. *)
Lemma Lits_word kw y pv s g k :
  all_chars Char.isword kw = true → starts_with Char.isword s = false →
  (∀ y1 y2, y = y1 ++ y2 → lower y1 = lower kw →
     k (Re.MState (after pv y1) (y2 ++ s) g) = None) →
  Re.rmatch true (Re.Lits kw) (Re.MState pv (y ++ s) g) k = None.
Proof.
  intros Hkw Hs. revert y pv.
  induction kw as [|c kw IH]; intros y pv Hk.
  - rewrite rmatch_Lits_nil. by apply (Hk "" y).
  - simpl in Hkw. apply andb_true_iff in Hkw as [Hc Hkw].
    destruct y as [|a y].
    + rewrite sapp_nil_l. destruct s as [|a s]; [done|].
      rewrite rmatch_Lits_cons. destruct (Re.lit_eq true c a) eqn:E; [|done].
      apply lit_eq_isword in E. simpl in Hs. congruence.
    + rewrite sapp_cons, rmatch_Lits_cons.
      destruct (Re.lit_eq true c a) eqn:E; [|done].
      apply IH; [done|]. intros y1 y2 -> Hl.
      apply (Hk (String a y1) y2); [done|]. simpl.
      by rewrite (lit_eq_lower _ _ E), Hl.
Qed.
End Keywords.

Lemma lookup_match T in1 in2 out1 out2 :
  is_name T = true → is_name in1 = true → is_name in2 = true →
  is_name out1 = true → is_name out2 = true →
  lower in2 ≠ "output" → lower in2 ≠ "outputnew" →
  Re.match_here true Pattern.lookup false None
    ("lookup " ++ T ++ " " ++ in1 ++ ", " ++ in2 ++ " OUTPUT "
     ++ out1 ++ ", " ++ out2)
  = Some (Re.MState (after (Some " "%char) (out1 ++ ", " ++ out2)) ""
            [(3, out1 ++ ", " ++ out2); (2, in1 ++ ", " ++ in2); (1, T)]).
Proof.
  intros HT Hi1 Hi2 Ho1 Ho2 Hne1 Hne2.
  unfold Re.match_here, Pattern.lookup, Pattern.ws, Pattern.any.
  str_norm. re_step.
  stop_at_name.
  re_step.
  pass_name T.
  2:{ refuse_word. }
  re_step.
  stop_at_name.
  re_step.
  pass_name in1.
  2:{ refuse_word. }
  re_step.
  stop_at_name.
  re_step.
  rewrite Lits_word; [| done | done |].
  2:{ intros y1 y2 -> Hl1. apply is_name_all in Hi2.
      rewrite all_chars_app in Hi2. apply andb_true_iff in Hi2 as [Hy1 Hy2].
      re_step. rewrite Lits_word; [| done | done |].
      - destruct y2 as [|a y2].
        + exfalso. apply Hne1. by rewrite sapp_nil_r.
        + simpl in Hy2. apply andb_true_iff in Hy2 as [Ha _].
          rewrite sapp_cons. re_step. by rewrite (word_not_space _ Ha).
      - intros y3 y4 -> Hl2.
        rewrite all_chars_app in Hy2. apply andb_true_iff in Hy2 as [Hy3 Hy4].
        destruct y4 as [|a y4].
        + exfalso. apply Hne2. by rewrite sapp_nil_r, lower_app, Hl1, Hl2.
        + simpl in Hy4. apply andb_true_iff in Hy4 as [Ha _].
          rewrite sapp_cons. re_step. by rewrite (word_not_space _ Ha). }
  re_step.
  pass_name in2.
  2:{ refuse_word. }
  re_step.
  stop_at_name.
  re_step.
  erewrite (star_greedy_end _ (out1 ++ ", " ++ out2)); [| | reflexivity ].
  2:{ rewrite !all_chars_app.
      rewrite (all_chars_impl _ _ _ word_not_nl (is_name_all _ Ho1)),
        (all_chars_impl _ _ _ word_not_nl (is_name_all _ Ho2)). done. }
  cbn [Re.set_group Re.rest Re.prev Re.caps]. rewrite taken_all.
  erewrite (taken_eq _ _ (in1 ++ ", " ++ in2)) by (by str_norm).
  erewrite (taken_eq _ _ T) by (by str_norm).
  by str_norm.
Qed.

Lemma split_app_sep sep a b :
  all_chars (fun c => negb (Ascii.eqb c sep)) a = true →
  split sep (a ++ String sep b) = a :: split sep b.
Proof.
  induction a as [|c a IH]; intros Ha.
  - rewrite sapp_nil_l. simpl. by rewrite Ascii.eqb_refl.
  - simpl in Ha. apply andb_true_iff in Ha as [Hc Ha].
    apply negb_true_iff in Hc. rewrite sapp_cons. simpl. by rewrite Hc, IH.
Qed.

Lemma strip_space_name w : is_name w = true → strip (String " " w) = w.
Proof.
  intros Hw. unfold strip. change (lstrip (String " " w)) with (lstrip w).
  rewrite lstrip_id, rstrip_name; [done..|].
  rewrite <- (sapp_nil_r w). by apply name_starts; [apply word_not_space|].
Qed.

Lemma split_two a b :
  is_name a = true → is_name b = true →
  map strip (split "," (a ++ ", " ++ b)) = [a; b].
Proof.
  intros Ha Hb. rewrite !sapp_cons, sapp_nil_l.
  rewrite split_app_sep
    by exact (all_chars_impl _ _ _ word_not_comma (is_name_all _ Ha)).
  rewrite (split_none "," (String " " b)).
  2:{ simpl. exact (all_chars_impl _ _ _ word_not_comma (is_name_all _ Hb)). }
  simpl. by rewrite strip_name, strip_space_name.
Qed.

Lemma lookup_fields T in1 in2 out1 out2 :
  is_name T = true → is_name in1 = true → is_name in2 = true →
  is_name out1 = true → is_name out2 = true →
  lower in2 ≠ "output" → lower in2 ≠ "outputnew" →
  extract_fields_from_lookup
    ("lookup " ++ T ++ " " ++ in1 ++ ", " ++ in2 ++ " OUTPUT "
     ++ out1 ++ ", " ++ out2)
  = Ok [in1; in2; out1; out2].
Proof.
  intros HT Hi1 Hi2 Ho1 Ho2 Hne1 Hne2. unfold extract_fields_from_lookup.
  unfold Re.findall_tuples.
  erewrite scan_hit_all; [| done | by apply lookup_match | done].
  rewrite scan_end by done.
  cbn [map Re.group_texts seq Re.group Re.caps Re.assoc Nat.eqb default
       for_each unpack3 mbind result_bind].
  unfold id. by rewrite !split_two.
Qed.

(** ** The dispatch on the verb *)

Section Dispatch.
Variables (fu : usage) (w s : string).
Hypothesis Hw : is_name w = true.
Hypothesis Hs : starts_with Char.isword s = false.

Lemma parse_command_rename :
  lower w = "rename" →
  parse_command fu (w ++ s)
  = (renamed_fields ← extract_fields_from_rename (w ++ s);
     Ok (foldl (fun fu '(old, new) => add_renamed fu new) fu renamed_fields)).
Proof.
  intros E. unfold parse_command. rewrite verb_match by done. cbn.
  by rewrite E.
Qed.

Lemma parse_command_eval :
  lower w = "eval" →
  parse_command fu (w ++ s)
  = (eval_fields ← extract_fields_from_eval (w ++ s);
     Ok (foldl add_created fu eval_fields)).
Proof.
  intros E. unfold parse_command. rewrite verb_match by done. cbn.
  by rewrite E.
Qed.

Lemma parse_command_stats :
  lower w = "stats" →
  parse_command fu (w ++ s)
  = (stats_fields ← extract_fields_from_stats (w ++ s);
     Ok (foldl add_used fu stats_fields)).
Proof.
  intros E. unfold parse_command. rewrite verb_match by done. cbn.
  by rewrite E.
Qed.

Lemma parse_command_lookup :
  lower w = "lookup" →
  parse_command fu (w ++ s)
  = (lookup_fields ← extract_fields_from_lookup (w ++ s);
     Ok (foldl add_used fu lookup_fields)).
Proof.
  intros E. unfold parse_command. rewrite verb_match by done. cbn.
  by rewrite E.
Qed.
End Dispatch.

(** ** The eval stage *)

Lemma Lits_no_prefix {A} kw pv s g (k : Re.mstate → option A) :
  has_prefix_ci kw s = false →
  Re.rmatch true (Re.Lits kw) (Re.MState pv s g) k = None.
Proof.
  revert pv s. induction kw as [|c kw IH]; intros pv s; [done|].
  destruct s as [|a s]; [done|]. cbn [has_prefix_ci].
  rewrite rmatch_Lits_cons. destruct (Re.lit_eq true c a); [|done].
  cbn [andb]. apply IH.
Qed.

Lemma eval_scan_none pv s :
  mentions_ci "eval" s = false → Re.scan true Pattern.eval pv s 0 = [].
Proof.
  revert pv. induction s as [|a s IH]; intros pv Hm.
  - reflexivity.
  - cbn [mentions_ci] in Hm. apply orb_false_iff in Hm as [Hp Hm].
    assert (Re.match_here true Pattern.eval false pv (String a s) = None) as E.
    { unfold Re.match_here, Pattern.eval. rewrite rmatch_Seq_cons.
      by apply Lits_no_prefix. }
    cbn [Re.scan]. rewrite E. by apply IH.
Qed.

Lemma eval_match F E :
  is_name F = true →
  Re.match_here true Pattern.eval false None ("eval " ++ F ++ " =" ++ E)
  = Some (Re.MState (Some "="%char) E [(1, F)]).
Proof.
  intros HF.
  unfold Re.match_here, Pattern.eval, Pattern.ws, Pattern.any.
  str_norm. re_step.
  stop_at_name.
  re_step.
  pass_name F.
  2:{ intros pv a s Ha. re_step. rewrite (word_not_space _ Ha).
      by rewrite lit_refuses_word. }
  re_step.
  erewrite (taken_eq _ _ F) by (by str_norm). done.
Qed.

Lemma eval_fields F E :
  is_name F = true → mentions_ci "eval" E = false →
  extract_fields_from_eval ("eval " ++ F ++ " =" ++ E) = Ok [F].
Proof.
  intros HF HE. unfold extract_fields_from_eval, Re.findall.
  replace ("eval " ++ F ++ " =" ++ E) with (("eval " ++ F ++ " =") ++ E)
    by (by str_norm).
  erewrite scan_hit; [| | rewrite !sapp_assoc; by apply eval_match | done].
  2:{ done. }
  rewrite eval_scan_none by done.
  cbn -[strip]. by rewrite strip_name.
Qed.

(** ** Every extractor returns *)

Section Totality.
Context {A : Type}.
Implicit Types (k : Re.mstate → option A).

Lemma star_lazy_inv p pv s g k res :
  Re.star_lazy p pv s g k = Some res →
  ∃ pv' s', k (Re.MState pv' s' g) = Some res.
Proof.
  revert pv. induction s as [|a s IH]; intros pv; simpl.
  - destruct (k _) eqn:E; [|done]. intros [= <-]. eauto.
  - destruct (k _) eqn:E; [intros [= <-]; eauto|].
    destruct (p a); [|done]. apply IH.
Qed.

Lemma star_greedy_inv p pv s g k res :
  Re.star_greedy p pv s g k = Some res →
  ∃ pv' s', k (Re.MState pv' s' g) = Some res.
Proof.
  revert pv. induction s as [|a s IH]; intros pv; simpl; [eauto|].
  destruct (p a); [|eauto].
  destruct (Re.star_greedy p (Some a) s g k) eqn:E; [|eauto].
  intros [= <-]. by eapply IH.
Qed.

Lemma rmatch_inv ic r st k res :
  Re.rmatch ic r st k = Some res →
  ∃ st', k st' = Some res ∧ keeps (fun i => defines i r) st st'.
Proof.
  revert st k. induction r as [|c|p|gr p|r1 IH1 r2 IH2|r1 IH1 r2 IH2|j r IH| |];
    intros st k; cbn [Re.rmatch defines].
  - intros H. exists st. split; [done|]. intros i [|]; done.
  - destruct (Re.rest st) as [|a s]; [done|].
    destruct (Re.lit_eq ic c a); [|done]. intros H.
    eexists. split; [done|]. intros i [|]; done.
  - destruct (Re.rest st) as [|a s]; [done|].
    destruct (p a); [|done]. intros H.
    eexists. split; [done|]. intros i [|]; done.
  - destruct gr; intros H.
    + apply star_greedy_inv in H as (pv' & s' & H).
      eexists. split; [done|]. intros i [|]; done.
    + apply star_lazy_inv in H as (pv' & s' & H).
      eexists. split; [done|]. intros i [|]; done.
  - intros H. apply IH1 in H as (st1 & H & K1).
    apply IH2 in H as (st2 & H & K2).
    exists st2. split; [done|]. intros i [Hi|Hi].
    + apply orb_true_iff in Hi as [Hi|Hi]; apply K2; [right; apply K1|]; auto.
    + apply K2. right. apply K1. auto.
  - destruct (Re.rmatch ic r1 st k) eqn:E.
    + intros [= <-]. apply IH1 in E as (st1 & H & K1).
      exists st1. split; [done|]. intros i [Hi|Hi]; apply K1; [|auto].
      apply andb_true_iff in Hi as [Hi _]. auto.
    + intros H. apply IH2 in H as (st2 & H & K2).
      exists st2. split; [done|]. intros i [Hi|Hi]; apply K2; [|auto].
      apply andb_true_iff in Hi as [_ Hi]. auto.
  - intros H. apply IH in H as (st1 & H & K1).
    eexists. split; [exact H|]. intros i Hi.
    unfold Re.group, Re.set_group. cbn [Re.caps Re.assoc].
    destruct (Nat.eqb i j) eqn:E; [done|]. apply K1.
    destruct Hi as [Hi|Hi]; [|auto]. simpl in Hi. auto.
  - destruct (Re.at_end _); [|done]. intros H.
    exists st. split; [done|]. intros i [|]; done.
  - destruct (Re.at_boundary _ _); [|done]. intros H.
    exists st. split; [done|]. intros i [|]; done.
Qed.
End Totality.

Lemma match_here_defines ic r ma pv s m i :
  Re.match_here ic r ma pv s = Some m → defines i r = true →
  is_Some (Re.group m i).
Proof.
  unfold Re.match_here. intros H Hi.
  apply rmatch_inv in H as (st' & H & K).
  destruct (_ && _); [done|]. injection H as <-. apply K. auto.
Qed.

Lemma re_match_defines ic r s m i :
  Re.re_match ic r s = Some m → defines i r = true → is_Some (Re.group m i).
Proof. apply match_here_defines. Qed.

Lemma for_each_ok {X Y} (l : list X) (body : X → result (list Y)) :
  (∀ a, ∃ bs, body a = Ok bs) → ∃ bs, for_each l body = Ok bs.
Proof.
  intros Hb. induction l as [|a l [bs' IH]]; [by eexists|].
  destruct (Hb a) as [bs E]. simpl. rewrite E, IH. by eexists.
Qed.

Lemma rename_total command : ∃ l, extract_fields_from_rename command = Ok l.
Proof.
  unfold extract_fields_from_rename, Re.findall_tuples.
  induction (Re.scan _ _ _ _ _) as [|m l [bs IH]]; [by eexists|].
  cbn. cbn in IH. rewrite IH. by eexists.
Qed.

Lemma eval_total command : ∃ l, extract_fields_from_eval command = Ok l.
Proof. apply for_each_ok. intros m. by eexists. Qed.

Lemma stats_total command : ∃ l, extract_fields_from_stats command = Ok l.
Proof.
  unfold extract_fields_from_stats, Re.findall_tuples.
  induction (Re.scan _ _ _ _ _) as [|m l [bs IH]]; [by eexists|].
  cbn [map for_each Re.group_texts seq unpack2 mbind result_bind].
  cbn [map for_each Re.group_texts seq unpack2 mbind result_bind] in IH.
  rewrite IH.
  match goal with
  | |- context [for_each (split ?c ?t) ?b] =>
      destruct (for_each_ok (split c t) b) as [aggs ->]; [|by eexists]
  end.
  intros part.
  destruct (Re.re_match true Pattern.agg_alias (strip part)) as [am|] eqn:E.
  - destruct (re_match_defines _ _ _ _ 2 E eq_refl) as [alias Ha].
    cbn. rewrite Ha. by eexists.
  - destruct (Re.findall false Pattern.agg_inner part); by eexists.
Qed.

Lemma lookup_total command : ∃ l, extract_fields_from_lookup command = Ok l.
Proof.
  unfold extract_fields_from_lookup, Re.findall_tuples.
  induction (Re.scan _ _ _ _ _) as [|m l [bs IH]]; [by eexists|].
  cbn. cbn in IH. rewrite IH. by eexists.
Qed.

Lemma parse_command_total fu cmd : ∃ fu', parse_command fu cmd = Ok fu'.
Proof.
  unfold parse_command.
  destruct (Re.re_match false Pattern.verb cmd) as [m|] eqn:E; [|by eexists].
  destruct (re_match_defines _ _ _ _ 1 E eq_refl) as [name ->].
  cbn [not_none mbind result_bind].
  repeat case_match; try by eexists.
  - destruct (rename_total cmd) as [l ->]. by eexists.
  - destruct (eval_total cmd) as [l ->]. by eexists.
  - destruct (stats_total cmd) as [l ->]. by eexists.
  - destruct (lookup_total cmd) as [l ->]. by eexists.
Qed.

Lemma parse_commands_total cmds fu : ∃ fu', parse_commands fu cmds = Ok fu'.
Proof.
  revert fu. induction cmds as [|cmd cmds IH]; intros fu; [by eexists|].
  simpl. destruct (parse_command_total fu cmd) as [fu1 ->]. apply IH.
Qed.

(** ** The fallback extractor *)

Lemma scan_miss ic r pv c s :
  Re.match_here ic r false pv (String c s) = None →
  Re.scan ic r pv (String c s) 0 = Re.scan ic r (Some c) s 0.
Proof. intros E. cbn [Re.scan]. by rewrite E. Qed.

Lemma span_word c s :
  Char.isword c = true →
  ∃ w s2, String c s = w ++ s2 ∧ is_name w = true
          ∧ starts_with Char.isword s2 = false.
Proof.
  revert c. induction s as [|d s IH]; intros c Hc.
  - exists (String c ""), "". unfold is_name. simpl. by rewrite Hc.
  - destruct (Char.isword d) eqn:Hd.
    + destruct (IH d Hd) as (w & s2 & E & Hw & Hs2).
      exists (String c w), s2. rewrite sapp_cons, <- E. split; [done|].
      split; [|done]. unfold is_name in *. simpl.
      apply andb_true_iff in Hw as [_ Hw]. by rewrite Hc, Hw.
    + exists (String c ""), (String d s). unfold is_name. simpl.
      by rewrite Hc, Hd.
Qed.

Lemma after_name pv w :
  is_name w = true → word_before (after pv w) = true.
Proof.
  intros (c & w' & -> & Hc & Hw)%is_name_inv. simpl.
  revert c Hc. induction w' as [|d w' IH]; intros c Hc; [done|].
  simpl in Hw. apply andb_true_iff in Hw as [Hd Hw]. simpl. by apply IH.
Qed.

Lemma after_app pv s t : after pv (s ++ t) = after (after pv s) t.
Proof.
  revert pv. induction s as [|c s IH]; intros pv; [done|].
  rewrite sapp_cons. simpl. apply IH.
Qed.

Lemma length_app_lt w s :
  is_name w = true → (String.length s < String.length (w ++ s))%nat.
Proof.
  intros (c & w' & -> & _)%is_name_inv. rewrite slength_app. simpl. lia.
Qed.

Lemma flush_name w : is_name w = true → flush w = [w].
Proof. by intros (c & w' & -> & _)%is_name_inv. Qed.

Lemma tokens_run cur w s :
  all_chars Char.isword w = true →
  tokens_from cur (w ++ s) = tokens_from (cur ++ w) s.
Proof.
  revert cur. induction w as [|c w IH]; intros cur Hw.
  - by rewrite sapp_nil_l, sapp_nil_r.
  - simpl in Hw. apply andb_true_iff in Hw as [Hc Hw].
    rewrite sapp_cons. simpl. rewrite Hc, IH by done.
    by rewrite sapp_assoc.
Qed.

Lemma tokens_flush cur s :
  starts_with Char.isword s = false →
  tokens_from cur s = (flush cur ++ tokens_from "" s)%list.
Proof.
  destruct s as [|c s]; simpl.
  - intros _. by rewrite app_nil_r.
  - intros ->. done.
Qed.

Lemma keys_run cur w s :
  all_chars Char.isword w = true →
  keys_from cur (w ++ s) = keys_from (cur ++ w) s.
Proof.
  revert cur. induction w as [|c w IH]; intros cur Hw.
  - by rewrite sapp_nil_l, sapp_nil_r.
  - simpl in Hw. apply andb_true_iff in Hw as [Hc Hw].
    rewrite sapp_cons. simpl. rewrite Hc, IH by done.
    by rewrite sapp_assoc.
Qed.

(** *** The pattern of the bare words *)

Lemma boundary_start pv c s :
  word_before pv = false → Char.isword c = true →
  Re.at_boundary pv (String c s) = true.
Proof.
  unfold Re.at_boundary. intros Hp Hc. rewrite Hc.
  destruct pv; simpl in Hp; by rewrite ?Hp.
Qed.

Lemma boundary_stop pv s :
  word_before pv = true → starts_with Char.isword s = false →
  Re.at_boundary pv s = true.
Proof.
  unfold Re.at_boundary. intros Hp Hs.
  destruct pv; simpl in Hp; [rewrite Hp|done].
  destruct s; simpl in Hs; by rewrite ?Hs.
Qed.

Lemma boundary_inside pv c s :
  word_before pv = true → Char.isword c = true →
  Re.at_boundary pv (String c s) = false.
Proof.
  unfold Re.at_boundary. intros Hp Hc. rewrite Hc.
  destruct pv; simpl in Hp; [by rewrite Hp|done].
Qed.

Lemma boundary_outside pv s :
  word_before pv = false → starts_with Char.isword s = false →
  Re.at_boundary pv s = false.
Proof.
  unfold Re.at_boundary. intros Hp Hs.
  destruct pv; simpl in Hp; rewrite ?Hp;
    destruct s; simpl in Hs; by rewrite ?Hs.
Qed.

Lemma word_here_run pv w s :
  word_before pv = false → is_name w = true →
  starts_with Char.isword s = false →
  Re.match_here false Pattern.word false pv (w ++ s)
  = Some (Re.MState (after pv w) s [(1, w)]).
Proof.
  intros Hpv Hw Hs. pose proof (after_name pv w Hw) as Ha.
  apply is_name_inv in Hw as (c & w' & -> & Hc & Hw).
  unfold Re.match_here, Pattern.word, Pattern.w.
  rewrite sapp_cons. re_step. rewrite boundary_start, Hc by done.
  erewrite star_greedy_all; [reflexivity | done | done |].
  re_step. rewrite boundary_stop by done.
  by rewrite <- sapp_cons, taken_app.
Qed.

Lemma word_here_none pv s :
  starts_with Char.isword s = false →
  Re.match_here false Pattern.word false pv s = None.
Proof.
  intros Hs. unfold Re.match_here, Pattern.word, Pattern.w. re_step.
  destruct (Re.at_boundary pv s); [|done].
  destruct s as [|c s]; [done|]. simpl in Hs. re_step. by rewrite Hs.
Qed.

Lemma findall_word_scan n : ∀ s pv,
  (String.length s ≤ n)%nat →
  word_before pv = false ∨ starts_with Char.isword s = false →
  map group1 (Re.scan false Pattern.word pv s 0) = word_tokens s.
Proof.
  induction n as [|n IH]; intros s pv Hn Hctx.
  - destruct s; [|simpl in Hn; lia].
    rewrite scan_end by (by apply word_here_none). done.
  - destruct s as [|c s].
    { rewrite scan_end by (by apply word_here_none). done. }
    destruct (Char.isword c) eqn:Hc.
    + destruct Hctx as [Hpv|Hs]; [|simpl in Hs; congruence].
      destruct (span_word c s Hc) as (w & s2 & E & Hw & Hs2).
      rewrite E in *.
      erewrite scan_hit; [| | by apply word_here_run | done].
      2:{ by apply is_name_inv in Hw as (? & ? & -> & _). }
      cbn [map]. rewrite IH; [| |by right].
      2:{ pose proof (length_app_lt w s2 Hw). lia. }
      unfold word_tokens. rewrite tokens_run by (by apply is_name_all).
      rewrite sapp_nil_l, (tokens_flush w), flush_name by done. done.
    + rewrite scan_miss by (by apply word_here_none).
      rewrite IH; [| simpl in Hn; lia | left; simpl; done].
      unfold word_tokens. simpl. by rewrite Hc.
Qed.

Lemma findall_word s : Re.findall false Pattern.word s = word_tokens s.
Proof. by apply (findall_word_scan (String.length s)); [|left]. Qed.

(** *** The pattern of the keys *)

Lemma key_here_hit pv w s :
  word_before pv = false → is_name w = true →
  Re.match_here false Pattern.key_eq false pv (w ++ String "=" s)
  = Some (Re.MState (Some "="%char) s [(1, w)]).
Proof.
  intros Hpv Hw.
  apply is_name_inv in Hw as (c & w' & -> & Hc & Hw).
  unfold Re.match_here, Pattern.key_eq, Pattern.w.
  rewrite sapp_cons. re_step. rewrite boundary_start, Hc by done.
  erewrite star_greedy_all; [reflexivity | done | done |].
  re_step. by rewrite <- sapp_cons, taken_app.
Qed.

Lemma key_here_run pv w s :
  word_before pv = false → is_name w = true →
  starts_with Char.isword s = false → starts_with is_eq s = false →
  Re.match_here false Pattern.key_eq false pv (w ++ s) = None.
Proof.
  intros Hpv Hw Hs Hq.
  apply is_name_inv in Hw as (c & w' & -> & Hc & Hw).
  unfold Re.match_here, Pattern.key_eq, Pattern.w.
  rewrite sapp_cons. re_step. rewrite boundary_start, Hc by done.
  rewrite (star_greedy_skip _ Char.isword); [| done | done | done |].
  - re_step. destruct s as [|d s]; [done|]. re_step.
    unfold Re.lit_eq. simpl in Hq. unfold is_eq in Hq. by rewrite Hq.
  - intros pv' a s' Ha. re_step. by rewrite lit_refuses_word.
Qed.

Lemma key_here_inside pv c s :
  word_before pv = true → Char.isword c = true →
  Re.match_here false Pattern.key_eq false pv (String c s) = None.
Proof.
  intros Hpv Hc. unfold Re.match_here, Pattern.key_eq. re_step.
  by rewrite boundary_inside.
Qed.

Lemma key_here_none pv s :
  starts_with Char.isword s = false →
  Re.match_here false Pattern.key_eq false pv s = None.
Proof.
  intros Hs. unfold Re.match_here, Pattern.key_eq, Pattern.w. re_step.
  destruct (Re.at_boundary pv s); [|done].
  destruct s as [|c s]; [done|]. simpl in Hs. re_step. by rewrite Hs.
Qed.

Lemma key_scan_inside w : ∀ pv s,
  word_before pv = true → all_chars Char.isword w = true →
  Re.scan false Pattern.key_eq pv (w ++ s) 0
  = Re.scan false Pattern.key_eq (after pv w) s 0.
Proof.
  induction w as [|c w IH]; intros pv s Hpv Hw; [done|].
  simpl in Hw. apply andb_true_iff in Hw as [Hc Hw].
  rewrite sapp_cons, scan_miss by (by apply key_here_inside).
  by apply IH.
Qed.

Lemma keys_flush cur s :
  starts_with Char.isword s = false → starts_with is_eq s = false →
  keys_from cur s = keys_from "" s.
Proof.
  destruct s as [|c s]; [done|]. simpl. unfold is_eq. by intros -> ->.
Qed.

Lemma findall_key_scan n : ∀ s pv,
  (String.length s ≤ n)%nat →
  word_before pv = false ∨ starts_with Char.isword s = false →
  map group1 (Re.scan false Pattern.key_eq pv s 0) = keys_before_eq s.
Proof.
  induction n as [|n IH]; intros s pv Hn Hctx.
  - destruct s; [|simpl in Hn; lia].
    rewrite scan_end by (by apply key_here_none). done.
  - destruct s as [|c s].
    { rewrite scan_end by (by apply key_here_none). done. }
    destruct (Char.isword c) eqn:Hc.
    + destruct Hctx as [Hpv|Hs]; [|simpl in Hs; congruence].
      destruct (span_word c s Hc) as (w & s2 & E & Hw & Hs2).
      rewrite E in *. pose proof (length_app_lt w s2 Hw) as Hlt.
      unfold keys_before_eq. rewrite keys_run by (by apply is_name_all).
      rewrite sapp_nil_l.
      destruct (starts_with is_eq s2) eqn:Hq.
      * destruct s2 as [|d s3]; [done|]. simpl in Hq. unfold is_eq in Hq.
        apply Ascii.eqb_eq in Hq as ->.
        replace (w ++ String "=" s3) with ((w ++ "=") ++ s3)
          by (by rewrite sapp_assoc).
        erewrite scan_hit;
          [| | rewrite sapp_assoc; by apply key_here_hit | done].
        2:{ by apply is_name_inv in Hw as (? & ? & -> & _). }
        cbn [map]. rewrite after_app. cbn [after].
        rewrite IH; [| rewrite slength_app in *; simpl in *; lia | by left].
        simpl. by rewrite flush_name.
      * apply is_name_inv in Hw as (c' & w' & -> & Hc' & Hw').
        rewrite sapp_cons, scan_miss.
        2:{ rewrite <- sapp_cons. apply key_here_run; [done | | done..].
            unfold is_name. simpl. by rewrite Hc', Hw'. }
        rewrite key_scan_inside by done.
        rewrite IH; [| lia | by right].
        unfold keys_before_eq. by rewrite (keys_flush (String c' w')).
    + rewrite scan_miss by (by apply key_here_none).
      rewrite IH; [| simpl in Hn; lia | left; simpl; done].
      unfold keys_before_eq. cbn [keys_from]. rewrite Hc.
      by destruct (is_eq c).
Qed.

Lemma findall_key_eq s : Re.findall false Pattern.key_eq s = keys_before_eq s.
Proof. by apply (findall_key_scan (String.length s)); [|left]. Qed.

(** ** The segmenter *)

Lemma split_nonempty sep s : split sep s ≠ [].
Proof.
  destruct s as [|c s]; [done|]. simpl.
  destruct (Ascii.eqb c sep); [done|]. by destruct (split sep s).
Qed.

Lemma split_app sep a b :
  split sep (a ++ String sep b) = (split sep a ++ split sep b)%list.
Proof.
  induction a as [|c a IH].
  - rewrite sapp_nil_l. simpl. by rewrite Ascii.eqb_refl.
  - rewrite sapp_cons. simpl. rewrite IH.
    destruct (Ascii.eqb c sep); [done|].
    pose proof (split_nonempty sep a). by destruct (split sep a).
Qed.

Lemma commands_app_pipe a b :
  commands (a ++ "|" ++ b) = (commands a ++ commands b)%list.
Proof.
  unfold commands. rewrite sapp_cons, sapp_nil_l, split_app.
  by rewrite map_app, filter_app.
Qed.

Lemma rstrip_blank s : rstrip s = "" → all_chars Char.isspace s = true.
Proof.
  induction s as [|c s IH]; [done|]. simpl.
  destruct (rstrip s); [|done].
  destruct (Char.isspace c); [|done]. intros _. by rewrite IH.
Qed.

Lemma lstrip_blank s :
  all_chars Char.isspace (lstrip s) = true → all_chars Char.isspace s = true.
Proof.
  induction s as [|c s IH]; [done|]. simpl.
  destruct (Char.isspace c) eqn:E; [done|]. simpl. by rewrite E.
Qed.

Lemma strip_nonblank a c b :
  Char.isspace c = false → strip (a ++ String c b) ≠ "".
Proof.
  intros Hc E. apply rstrip_blank, lstrip_blank in E.
  rewrite all_chars_app in E. simpl in E. rewrite Hc in E.
  by rewrite andb_false_r in E.
Qed.

Lemma commands_no_pipe s :
  no_pipe s = true → strip s ≠ "" → commands s = [strip s].
Proof.
  intros Hp Hs. unfold commands. rewrite split_none by done.
  simpl. by rewrite filter_cons_True.
Qed.

(** ** The compliance check *)

Lemma all_cim_fields_spec c :
  c ∈ ALL_CIM_FIELDS ↔ canonical CIM_FIELD_MAPPINGS c.
Proof.
  unfold ALL_CIM_FIELDS, canonical.
  assert (G : ∀ (table : list (string * list (string * string)))
                 (acc : gset string),
    c ∈ foldl (fun acc sf => acc ∪ list_to_set (map snd sf.2)) acc table
    ↔ c ∈ acc ∨ ∃ source mappings k,
        (source, mappings) ∈ table ∧ (k, c) ∈ mappings).
  { induction table as [|[src m] table IH]; intros acc; simpl.
    - split; [auto|]. intros [?|(? & ? & ? & H & _)]; [done|].
      by apply elem_of_nil in H.
    - rewrite IH, elem_of_union, elem_of_list_to_set. split.
      + intros [[?|H]|(s & m' & k & H & ?)]; [by left| |].
        * apply list_elem_of_fmap in H as ([k c'] & -> & H).
          right. exists src, m, k. split; [left|done].
        * right. exists s, m', k. split; [by right|done].
      + intros [?|(s & m' & k & H & Hk)]; [by left; left|].
        apply elem_of_cons in H as [[= -> ->]|H].
        * left. right. apply list_elem_of_fmap. by exists (k, c).
        * right. by exists s, m', k. }
  rewrite G. split; [|auto]. intros [H|H]; [|done]. set_solver.
Qed.

Lemma mapped_spec f :
  existsb (fun sm => has_key f sm.2) CIM_FIELD_MAPPINGS = true
  ↔ custom_key CIM_FIELD_MAPPINGS f.
Proof.
  unfold custom_key. generalize CIM_FIELD_MAPPINGS as table.
  intros table. rewrite existsb_exists. split.
  - intros ([src m] & Hin & Hk). unfold has_key in Hk.
    apply bool_decide_eq_true in Hk. simpl in Hk.
    apply list_elem_of_fmap in Hk as ([k c] & -> & Hk).
    exists src, m, c. split; [by apply list_elem_of_In|done].
  - intros (src & m & c & Hin & Hk). exists (src, m).
    split; [by apply list_elem_of_In|]. unfold has_key.
    apply bool_decide_eq_true. simpl. apply list_elem_of_fmap. by exists (f, c).
Qed.

Lemma violating_spec f :
  violating f = true
  ↔ ¬ canonical CIM_FIELD_MAPPINGS f ∧ ¬ custom_key CIM_FIELD_MAPPINGS f.
Proof.
  unfold violating.
  rewrite andb_true_iff, !negb_true_iff, bool_decide_eq_false.
  rewrite all_cim_fields_spec, <- mapped_spec, not_true_iff_false. done.
Qed.

Lemma check_field_fields f :
  map field (check_field f) = if violating f then [f] else [].
Proof.
  unfold check_field, violating.
  destruct (bool_decide _); [done|]. by destruct (existsb _ _).
Qed.

Lemma violations_fields (l : list string) :
  map field (flat_map check_field l) = filter (fun f => violating f = true) l.
Proof.
  induction l as [|f l IH]; [done|].
  simpl. rewrite map_app, IH, check_field_fields, filter_cons.
  destruct (violating f) eqn:E.
  - by rewrite decide_True.
  - by rewrite decide_False.
Qed.

(** ** The alias index *)

Lemma suggest_alias_eqb aliases f :
  suggest_alias_of aliases f
  = flat_map (fun ac => if existsb (fun k => String.eqb k (lower f)) ac.2
                        then [ac.1] else [])
      (lowered_aliases aliases).
Proof.
  unfold suggest_alias_of. induction aliases as [|[c ks] al IH]; [done|].
  simpl. rewrite IH. f_equal.
  destruct (existsb _ _) eqn:E.
  - apply existsb_exists in E as (k & Hk & ->%String.eqb_eq).
    rewrite bool_decide_eq_true_2; [done|]. by apply list_elem_of_In.
  - rewrite bool_decide_eq_false_2; [done|]. intros H%list_elem_of_In.
    apply not_true_iff_false in E. apply E, existsb_exists.
    eexists. split; [done|]. apply String.eqb_refl.
Qed.

Lemma suggestAliases_eqb table f :
  suggestAliases table f
  = dedup (flat_map (fun kc => if String.eqb kc.1 (lower f) then [kc.2] else [])
             (lowered_pairs (pairs_of table))).
Proof.
  unfold suggestAliases. f_equal.
  induction (pairs_of table) as [|[k c] l IH]; [done|].
  simpl. by rewrite IH.
Qed.

(** One key of the table at a time: either it is the name looked up, and
    both sides are computed, or it is not. *)
Ltac split_on_key lf :=
  match goal with
  | |- context [String.eqb ?k lf] =>
      destruct (String.eqb_spec k lf) as [<-|_]; [vm_compute; reflexivity|]
  end.

Lemma suggest_alias_refines f :
  suggest_alias f = suggestAliases CIM_FIELD_MAPPINGS f.
Proof.
  unfold suggest_alias. rewrite suggest_alias_eqb, suggestAliases_eqb.
  generalize (lower f) as lf. intros lf.
  let al := eval vm_compute in (lowered_aliases get_field_aliases) in
  change (lowered_aliases get_field_aliases) with al.
  let ps := eval vm_compute in (lowered_pairs (pairs_of CIM_FIELD_MAPPINGS)) in
  change (lowered_pairs (pairs_of CIM_FIELD_MAPPINGS)) with ps.
  cbn [flat_map existsb fst snd app orb].
  repeat split_on_key lf.
  reflexivity.
Qed.

(** ** The rename stage with one pair *)

Lemma rmatch_Lits_ci {A} kw p pv s g (k : Re.mstate → option A) :
  lower p = lower kw →
  Re.rmatch true (Re.Lits kw) (Re.MState pv (p ++ s) g) k
  = k (Re.MState (after pv p) s g).
Proof.
  revert p pv. induction kw as [|c kw IH]; intros [|a p] pv E; try done.
  simpl in E. injection E as Ea Ep.
  rewrite sapp_cons, rmatch_Lits_cons. unfold Re.lit_eq.
  rewrite Ea, Ascii.eqb_refl. exact (IH p (Some a) Ep).
Qed.

Lemma lower_name s w :
  lower s = lower w → is_name w = true → is_name s = true.
Proof.
  unfold is_name. intros E Hw.
  destruct w as [|c w]; [done|]. destruct s as [|a s]; [done|].
  simpl in *. revert s E Hw. revert a c.
  induction w as [|c' w IH]; intros a c s E.
  - destruct s; [|done]. injection E as E. simpl.
    by rewrite <- (lower_isword a), E, lower_isword.
  - destruct s as [|a' s]; [done|]. injection E as E1 E2.
    intros [Hc Hw]%andb_true_iff.
    rewrite <- (lower_isword a), E1, lower_isword, Hc.
    apply (IH a' c' s); [|done]. simpl. by f_equal.
Qed.

Lemma rename_match a kw b :
  is_name a = true → lower kw = "as" → is_name b = true →
  Re.match_here true Pattern.rename false None
    ("rename " ++ a ++ " " ++ kw ++ " " ++ b)
  = Some (Re.MState (after (Some " "%char) b) "" [(3, ""); (2, b); (1, a)]).
Proof.
  intros Ha Hkw Hb.
  assert (is_name kw = true) as Hk by (by apply (lower_name kw "as")).
  unfold Re.match_here, Pattern.rename, Pattern.ws, Pattern.any.
  str_norm. re_step.
  stop_at_name.
  re_step.
  pass_name a.
  2:{ refuse_word. }
  re_step.
  stop_at_name.
  re_step. rewrite rmatch_Lits_ci by done. re_step.
  stop_at_name.
  re_step. rewrite <- (sapp_nil_r b) at 1.
  pass_name b.
  2:{ intros pv c s Hc. re_step. rewrite (word_not_space _ Hc).
      unfold Re.at_end. destruct s; [|done].
      replace (Char.at_code 10 c) with false; [done|].
      apply word_not_nl in Hc. unfold Char.notnl in Hc.
      by destruct (Char.at_code 10 c). }
  re_step. change (Re.at_end "") with true. re_step.
  rewrite !taken_all.
  erewrite (taken_eq _ _ a) by (by str_norm). done.
Qed.

(** ** One-stage queries *)

Lemma parse_one_stage q cmd fu :
  commands q = [cmd] → parse_command no_usage cmd = Ok fu →
  parse_search_query q = Ok fu.
Proof.
  intros Hq Hc. unfold parse_search_query. rewrite Hq. simpl. by rewrite Hc.
Qed.

Lemma stage_commands a w :
  starts_with Char.isspace (a ++ w) = false → no_pipe a = true →
  is_name w = true → commands (a ++ w) = [a ++ w].
Proof.
  intros Hs Ha Hw. rewrite commands_no_pipe.
  - by rewrite strip_app_name.
  - unfold no_pipe in *. rewrite all_chars_app, Ha.
    exact (all_chars_impl _ _ _ word_not_pipe (is_name_all _ Hw)).
  - rewrite strip_app_name by done.
    apply is_name_inv in Hw as (c & w' & -> & _). by destruct a.
Qed.

Lemma name_no_pipe w : is_name w = true → no_pipe w = true.
Proof.
  intros Hw. exact (all_chars_impl _ _ _ word_not_pipe (is_name_all _ Hw)).
Qed.

Lemma no_pipe_app a b : no_pipe (a ++ b) = no_pipe a && no_pipe b.
Proof. apply all_chars_app. Qed.

(** * The claims *)

(** ** C1: pipes inside a bracketed subsearch *)

(** Claim C1 as the specification words it does not hold: a subsearch with
    a pipe inside gives one more stage than the same query with the content
    of the subsearch removed. *)
Lemma C1_counterexample :
  length (commands "search a [ search b | fields c ]")
  ≠ length (commands "search a []").
Proof. vm_compute. discriminate. Qed.

(** Claim C1 as the code has it: the segmenter splits at every pipe, the
    brackets are not looked at.  A query [pre[i1|i2]post] without another
    pipe has the two stages [pre[i1] and [i2]post], stripped, where the
    query with the content of the subsearch removed has one. *)
Theorem C1_pipe_in_brackets_is_a_boundary pre i1 i2 post :
  no_pipe pre = true → no_pipe i1 = true → no_pipe i2 = true →
  no_pipe post = true →
  commands (pre ++ "[" ++ i1 ++ "|" ++ i2 ++ "]" ++ post)
    = [strip (pre ++ "[" ++ i1); strip (i2 ++ "]" ++ post)]
  ∧ commands (pre ++ "[" ++ "]" ++ post)
    = [strip (pre ++ "[" ++ "]" ++ post)].
Proof.
  intros Hpre Hi1 Hi2 Hpost. split.
  - replace (pre ++ "[" ++ i1 ++ "|" ++ i2 ++ "]" ++ post)
      with ((pre ++ "[" ++ i1) ++ "|" ++ (i2 ++ "]" ++ post))
      by (by rewrite !sapp_assoc).
    rewrite commands_app_pipe, !commands_no_pipe; [done | | | |].
    + by rewrite !no_pipe_app, Hi2, Hpost.
    + rewrite !sapp_cons, sapp_nil_l. by apply strip_nonblank.
    + by rewrite !no_pipe_app, Hpre, Hi1.
    + rewrite !sapp_cons, sapp_nil_l. by apply strip_nonblank.
  - rewrite commands_no_pipe; [done | |].
    + by rewrite !no_pipe_app, Hpre, Hpost.
    + rewrite !sapp_cons, sapp_nil_l. by apply strip_nonblank.
Qed.

Lemma C1_witness :
  no_pipe "search a " = true ∧ no_pipe " search b " = true ∧
  no_pipe " fields c " = true ∧ no_pipe "" = true ∧
  commands "search a [ search b | fields c ]"
    = ["search a [ search b"; "fields c ]"] ∧
  commands "search a []" = ["search a []"].
Proof.
  repeat (split; [reflexivity|]).
  apply (C1_pipe_in_brackets_is_a_boundary
           "search a " " search b " " fields c " ""); reflexivity.
Defined.

(** ** C2: the stage [stats count(x) as y by z] *)

Lemma stats_example :
  parse_search_query "stats count(x) as y by z"
  = Ok (Usage ∅ ∅ {["y"; "z"]}).
Proof. vm_compute. reflexivity. Qed.

(** Claim C2 as the specification words it does not hold: for
    [stats count(x) as y by z] the alias [y] is not in [created] and the
    inner field [x] is not in [used]. *)
Lemma C2_counterexample :
  ¬ ∃ u, parse_search_query "stats count(x) as y by z" = Ok u
         ∧ "y" ∈ created u ∧ "x" ∈ used u ∧ "z" ∈ used u.
Proof.
  intros (u & Hu & Hy & _). rewrite stats_example in Hu.
  injection Hu as <-. simpl in Hy. by apply not_elem_of_empty in Hy.
Qed.

(** Claim C2 as the code has it: for a stage [stats count(x) as y by z],
    with field names [x], [y], [z] and [y] other than [by], the alias [y]
    and the by-field [z] are added to [used]; nothing is added to [created]
    and the inner field [x] is not recorded. *)
Theorem C2_stats_alias_and_by_field_are_used x y z :
  is_name x = true → is_name y = true → is_name z = true →
  String.eqb (lower y) "by" = false →
  (∀ fu, parse_command fu (stats_stage x y z)
         = Ok (add_used (add_used fu y) z))
  ∧ parse_search_query (stats_stage x y z) = Ok (Usage ∅ ∅ {[y; z]}).
Proof.
  intros Hx Hy Hz Hby%String.eqb_neq.
  assert (Hcmd : ∀ fu, parse_command fu (stats_stage x y z)
                       = Ok (add_used (add_used fu y) z)).
  { intros fu. unfold stats_stage.
    change ("stats count(" ++ x ++ ") as " ++ y ++ " by " ++ z)
      with ("stats" ++ " count(" ++ x ++ ") as " ++ y ++ " by " ++ z) at 1.
    rewrite parse_command_stats by done.
    change ("stats" ++ " count(" ++ x ++ ") as " ++ y ++ " by " ++ z)
      with ("stats count(" ++ x ++ ") as " ++ y ++ " by " ++ z).
    by rewrite stats_fields. }
  split; [done|].
  apply (parse_one_stage _ (stats_stage x y z)).
  - unfold stats_stage. rewrite <- !sapp_assoc.
    apply stage_commands; [done| |done].
    by rewrite !no_pipe_app, (name_no_pipe x), (name_no_pipe y).
  - rewrite Hcmd. unfold add_used, no_usage. simpl. do 2 f_equal.
    by rewrite (right_id_L ∅ (∪)), (comm_L (∪)).
Qed.

Lemma C2_witness :
  is_name "x" = true ∧ is_name "y" = true ∧ is_name "z" = true ∧
  String.eqb (lower "y") "by" = false ∧
  parse_search_query (stats_stage "x" "y" "z")
  = Ok (Usage ∅ ∅ {["y"; "z"]}).
Proof.
  repeat (split; [reflexivity|]).
  apply (C2_stats_alias_and_by_field_are_used "x" "y" "z"); reflexivity.
Defined.

(** ** C3: the stage [lookup T in1, in2 OUTPUT out1, out2] *)

Lemma lookup_example :
  parse_search_query "lookup T in1, in2 OUTPUT out1, out2"
  = Ok (Usage ∅ ∅ {["in1"; "in2"; "out1"; "out2"]}).
Proof. vm_compute. reflexivity. Qed.

(** Claim C3 as the specification words it does not hold: for
    [lookup T in1, in2 OUTPUT out1, out2] the output fields are not in
    [created]. *)
Lemma C3_counterexample :
  ¬ ∃ u, parse_search_query "lookup T in1, in2 OUTPUT out1, out2" = Ok u
         ∧ "in1" ∈ used u ∧ "in2" ∈ used u
         ∧ "out1" ∈ created u ∧ "out2" ∈ created u.
Proof.
  intros (u & Hu & _ & _ & Ho & _). rewrite lookup_example in Hu.
  injection Hu as <-. simpl in Ho. by apply not_elem_of_empty in Ho.
Qed.

(** Claim C3 as the code has it: for a stage
    [lookup T in1, in2 OUTPUT out1, out2], with field names throughout and
    [in2] other than [output] and [outputnew], the input fields and the
    output fields are all added to [used]; nothing is added to [created]. *)
Theorem C3_lookup_fields_are_used T in1 in2 out1 out2 :
  is_name T = true → is_name in1 = true → is_name in2 = true →
  is_name out1 = true → is_name out2 = true →
  String.eqb (lower in2) "output" = false →
  String.eqb (lower in2) "outputnew" = false →
  (∀ fu, parse_command fu (lookup_stage T in1 in2 out1 out2)
         = Ok (foldl add_used fu [in1; in2; out1; out2]))
  ∧ parse_search_query (lookup_stage T in1 in2 out1 out2)
    = Ok (Usage ∅ ∅ {[in1; in2; out1; out2]}).
Proof.
  intros HT Hi1 Hi2 Ho1 Ho2 Hne1%String.eqb_neq Hne2%String.eqb_neq.
  assert (Hcmd : ∀ fu, parse_command fu (lookup_stage T in1 in2 out1 out2)
                       = Ok (foldl add_used fu [in1; in2; out1; out2])).
  { intros fu. unfold lookup_stage.
    change ("lookup " ++ T ++ " " ++ in1 ++ ", " ++ in2 ++ " OUTPUT "
            ++ out1 ++ ", " ++ out2)
      with ("lookup" ++ " " ++ T ++ " " ++ in1 ++ ", " ++ in2 ++ " OUTPUT "
            ++ out1 ++ ", " ++ out2) at 1.
    rewrite parse_command_lookup by done.
    change ("lookup" ++ " " ++ T ++ " " ++ in1 ++ ", " ++ in2 ++ " OUTPUT "
            ++ out1 ++ ", " ++ out2)
      with ("lookup " ++ T ++ " " ++ in1 ++ ", " ++ in2 ++ " OUTPUT "
            ++ out1 ++ ", " ++ out2).
    by rewrite lookup_fields. }
  split; [done|].
  apply (parse_one_stage _ (lookup_stage T in1 in2 out1 out2)).
  - unfold lookup_stage. rewrite <- !sapp_assoc.
    apply stage_commands; [done| |done].
    rewrite !no_pipe_app, (name_no_pipe T), (name_no_pipe in1),
      (name_no_pipe in2), (name_no_pipe out1) by done. done.
  - rewrite Hcmd. unfold add_used, no_usage. simpl. do 2 f_equal.
    rewrite (right_id_L ∅ (∪)). apply set_eq. intros e.
    rewrite !elem_of_union. tauto.
Qed.

Lemma C3_witness :
  is_name "T" = true ∧ is_name "in1" = true ∧ is_name "in2" = true ∧
  is_name "out1" = true ∧ is_name "out2" = true ∧
  String.eqb (lower "in2") "output" = false ∧
  String.eqb (lower "in2") "outputnew" = false ∧
  parse_search_query (lookup_stage "T" "in1" "in2" "out1" "out2")
  = Ok (Usage ∅ ∅ {["in1"; "in2"; "out1"; "out2"]}).
Proof.
  repeat (split; [reflexivity|]).
  apply (C3_lookup_fields_are_used "T" "in1" "in2" "out1" "out2");
    reflexivity.
Defined.

(** ** C4: the violations *)

(** Claim C4: the compliance check reports a field exactly when it is in
    one of the sets [used], [created] and [renamed] of the usage record of
    the query, is no target of the mapping table and is no custom-field key
    of any source; no field is reported twice, in however many of the three
    sets it is. *)
Theorem C4_one_violation_per_unmapped_field name q :
  ∃ fu vs,
    parse_search_query q = Ok fu ∧ check_cim_compliance name q = Ok vs ∧
    NoDup (map field vs) ∧
    ∀ F, F ∈ map field vs
         ↔ (F ∈ used fu ∨ F ∈ created fu ∨ F ∈ renamed fu)
           ∧ ¬ canonical CIM_FIELD_MAPPINGS F
           ∧ ¬ custom_key CIM_FIELD_MAPPINGS F.
Proof.
  destruct (parse_commands_total (commands q) no_usage) as [fu Hfu].
  exists fu, (flat_map check_field (elements (all_fields_of fu))).
  split; [done|]. split.
  { unfold check_cim_compliance, parse_search_query. by rewrite Hfu. }
  rewrite violations_fields. split.
  - apply NoDup_filter, NoDup_elements.
  - intros F. rewrite list_elem_of_filter, elem_of_elements, violating_spec.
    unfold all_fields_of. rewrite !elem_of_union. tauto.
Qed.

(** ** C5: alias suggestions *)

Lemma elem_of_dedup x l : x ∈ dedup l ↔ x ∈ l.
Proof.
  induction l as [|y l IH]; [done|]. simpl.
  rewrite !elem_of_cons, list_elem_of_filter, IH.
  destruct (decide (x = y)); tauto.
Qed.

Lemma NoDup_dedup l : NoDup (dedup l).
Proof.
  induction l as [|y l IH]; [constructor|]. simpl. constructor.
  - rewrite list_elem_of_filter. tauto.
  - by apply NoDup_filter.
Qed.

Lemma elem_of_pairs_of table k c :
  (k, c) ∈ pairs_of table
  ↔ ∃ source mappings, (source, mappings) ∈ table ∧ (k, c) ∈ mappings.
Proof.
  unfold pairs_of. rewrite list_elem_of_In, in_flat_map. split.
  - intros ([src m] & H1 & H2). exists src, m.
    by rewrite !list_elem_of_In.
  - intros (src & m & H1 & H2). exists (src, m).
    by rewrite <- !list_elem_of_In.
Qed.

Lemma elem_of_suggestAliases table f c :
  c ∈ suggestAliases table f
  ↔ ∃ source mappings k,
      (source, mappings) ∈ table ∧ (k, c) ∈ mappings
      ∧ lower k = lower f.
Proof.
  unfold suggestAliases. rewrite elem_of_dedup, list_elem_of_In, in_flat_map.
  split.
  - intros ([k c'] & Hin & Hc). unfold key_matches in Hc. simpl in Hc.
    destruct (String.eqb_spec (lower k) (lower f)) as [E|]; [|done].
    destruct Hc as [Hc|[]]. simpl in Hc. subst c'.
    apply list_elem_of_In, elem_of_pairs_of in Hin as (src & m & H1 & H2).
    by exists src, m, k.
  - intros (src & m & k & H1 & H2 & E). exists (k, c). split.
    + apply list_elem_of_In, elem_of_pairs_of. by exists src, m.
    + unfold key_matches. simpl. rewrite E, String.eqb_refl. by left.
Qed.

(** Claim C5: [suggest_alias] returns what the scan of the specification
    returns: the canonical names of the keys that match the field, letter
    case apart, each once, in the order of their first match.  A canonical
    name is returned exactly when one of its keys matches, and the result
    is empty exactly when no key of any source matches. *)
Theorem C5_suggest_alias_is_the_specified_scan f :
  suggest_alias f = suggestAliases CIM_FIELD_MAPPINGS f
  ∧ NoDup (suggest_alias f)
  ∧ (∀ c, c ∈ suggest_alias f
          ↔ ∃ source mappings k,
              (source, mappings) ∈ CIM_FIELD_MAPPINGS
              ∧ (k, c) ∈ mappings ∧ lower k = lower f)
  ∧ (suggest_alias f = []
     ↔ ¬ ∃ source mappings k c,
           (source, mappings) ∈ CIM_FIELD_MAPPINGS
           ∧ (k, c) ∈ mappings ∧ lower k = lower f).
Proof.
  rewrite suggest_alias_refines. split; [done|].
  split; [apply NoDup_dedup|]. split; [apply elem_of_suggestAliases|].
  split.
  - intros E (src & m & k & c & H).
    assert (c ∈ suggestAliases CIM_FIELD_MAPPINGS f) as Hc
      by (apply elem_of_suggestAliases; eauto).
    rewrite E in Hc. by apply elem_of_nil in Hc.
  - intros Hn. destruct (suggestAliases CIM_FIELD_MAPPINGS f) as [|c l] eqn:E;
      [done|].
    exfalso. apply Hn.
    assert (c ∈ suggestAliases CIM_FIELD_MAPPINGS f) as Hc
      by (rewrite E; left).
    apply elem_of_suggestAliases in Hc as (src & m & k & H). eauto 6.
Qed.

(** ** C6: the rename stage *)

Lemma rename_example :
  parse_search_query "rename a as b, c as d" = Ok (Usage {["b,"]} ∅ ∅).
Proof. vm_compute. reflexivity. Qed.

(** Claim C6, the code at the failing input: of the list of pairs
    [rename a as b, c as d] the code records the one name [b,], comma
    included, and neither [b] nor [d]; the two-pair stage of the module's
    own example gives [action,] and neither of its new names. *)
Theorem C6_rename_list_is_cut_short :
  parse_search_query "rename a as b, c as d" = Ok (Usage {["b,"]} ∅ ∅)
  ∧ parse_search_query
      "rename eventName as action, sourceIPAddress as src_ip"
    = Ok (Usage {["action,"]} ∅ ∅)
  ∧ extract_fields_from_rename "rename a as b, c as d" = Ok [("a", "b,")].
Proof. repeat split; vm_compute; reflexivity. Qed.

(** On a list of pairs the new names are not all recorded: of
    [rename a as b, c as d] neither new name is in [renamed]. *)
Lemma C6_counterexample :
  ¬ ∃ u, parse_search_query "rename a as b, c as d" = Ok u
         ∧ "b" ∈ renamed u ∧ "d" ∈ renamed u.
Proof.
  intros (u & Hu & _ & Hd). rewrite rename_example in Hu.
  injection Hu as <-. simpl in Hd. by apply elem_of_singleton in Hd.
Qed.

(** The single pair of the claim is handled as the claim says: for a rename
    stage with one pair, [rename a as b] with field names [a] and [b] and
    the keyword [as] in any letter case, the new name [b] is added to
    [renamed] and nothing else is recorded: the old name [a] is not
    classified. *)
Theorem C6_rename_single_pair a kw b :
  is_name a = true → lower kw = "as" → is_name b = true →
  (∀ fu, parse_command fu (rename_stage a kw b) = Ok (add_renamed fu b))
  ∧ parse_search_query (rename_stage a kw b) = Ok (Usage {[b]} ∅ ∅).
Proof.
  intros Ha Hkw Hb.
  assert (Hcmd : ∀ fu, parse_command fu (rename_stage a kw b)
                       = Ok (add_renamed fu b)).
  { intros fu. unfold rename_stage.
    change ("rename " ++ a ++ " " ++ kw ++ " " ++ b)
      with ("rename" ++ " " ++ a ++ " " ++ kw ++ " " ++ b) at 1.
    rewrite parse_command_rename by done.
    change ("rename" ++ " " ++ a ++ " " ++ kw ++ " " ++ b)
      with ("rename " ++ a ++ " " ++ kw ++ " " ++ b).
    unfold extract_fields_from_rename, Re.findall_tuples.
    erewrite scan_hit_all; [| done | by apply rename_match | done].
    rewrite scan_end by done.
    cbn -[strip]. unfold id. by rewrite !strip_name. }
  split; [done|].
  apply (parse_one_stage _ (rename_stage a kw b)).
  - unfold rename_stage. rewrite <- !sapp_assoc.
    apply stage_commands; [done| |done].
    rewrite !no_pipe_app, (name_no_pipe a), (name_no_pipe kw); [done| |done].
    by apply (lower_name kw "as").
  - rewrite Hcmd. unfold add_renamed, no_usage. simpl. do 2 f_equal.
    by rewrite (right_id_L ∅ (∪)).
Qed.

Lemma C6_witness :
  is_name "A" = true ∧ lower "AS" = "as" ∧ is_name "B" = true ∧
  parse_search_query (rename_stage "A" "AS" "B") = Ok (Usage {["B"]} ∅ ∅).
Proof.
  repeat (split; [reflexivity|]).
  apply (C6_rename_single_pair "A" "AS" "B"); reflexivity.
Defined.

(** ** C7: the eval stage *)

Lemma eval_example :
  parse_search_query "eval a = 1, b = 2" = Ok (Usage ∅ {["a"]} ∅).
Proof. vm_compute. reflexivity. Qed.

(** Claim C7, the code at the failing input: of the two assignments of
    [eval a = 1, b = 2] the extractor returns the first field only, and
    [created] holds [a] and not [b]. *)
Theorem C7_eval_list_is_cut_short :
  extract_fields_from_eval "eval a = 1, b = 2" = Ok ["a"]
  ∧ parse_search_query "eval a = 1, b = 2" = Ok (Usage ∅ {["a"]} ∅)
  ∧ parse_search_query "eval a = 1, b = 2"
    ≠ Ok (Usage ∅ {["a"; "b"]} ∅).
Proof.
  split; [by vm_compute|]. split; [by vm_compute|].
  replace (parse_search_query "eval a = 1, b = 2")
    with (Ok (Usage ∅ {["a"]} ∅)) by (by vm_compute).
  intros H.
  apply (f_equal (fun r => match r with Ok u => created u | Raise _ => ∅ end))
    in H.
  cbn [created] in H.
  assert ("b" ∈ ({["a"]} : gset string)) as Hb.
  { rewrite H. apply elem_of_union. right. by apply elem_of_singleton. }
  by apply elem_of_singleton in Hb.
Qed.

(** Of the two assignments of [eval a = 1, b = 2] the second is not
    extracted. *)
Lemma C7_counterexample :
  ¬ ∃ u, parse_search_query "eval a = 1, b = 2" = Ok u
         ∧ "a" ∈ created u ∧ "b" ∈ created u.
Proof.
  intros (u & Hu & _ & Hb). rewrite eval_example in Hu.
  injection Hu as <-. simpl in Hb. by apply elem_of_singleton in Hb.
Qed.

(** The first assignment is handled as the claim says: of an eval stage
    [eval f = expr] the field name [f] before the first equals sign is added
    to [created]; nothing is extracted from what follows as long as the
    keyword [eval] does not occur again in it. *)
Theorem C7_eval_first_assignment_is_created f expr :
  is_name f = true → mentions_ci "eval" expr = false →
  (∀ fu, parse_command fu (eval_stage f expr) = Ok (add_created fu f))
  ∧ (∀ q, commands q = [eval_stage f expr] →
          parse_search_query q = Ok (Usage ∅ {[f]} ∅)).
Proof.
  intros Hf He.
  assert (Hcmd : ∀ fu, parse_command fu (eval_stage f expr)
                       = Ok (add_created fu f)).
  { intros fu. unfold eval_stage.
    change ("eval " ++ f ++ " = " ++ expr)
      with ("eval" ++ " " ++ f ++ " = " ++ expr) at 1.
    rewrite parse_command_eval by done.
    change ("eval" ++ " " ++ f ++ " = " ++ expr)
      with ("eval " ++ f ++ " =" ++ String " " expr).
    rewrite eval_fields; [done..|].
    cbn [mentions_ci has_prefix_ci]. by rewrite He. }
  split; [done|]. intros q Hq.
  apply (parse_one_stage _ _ _ Hq). rewrite Hcmd.
  unfold add_created, no_usage. simpl. do 2 f_equal.
  by rewrite (right_id_L ∅ (∪)).
Qed.

Lemma C7_witness :
  is_name "a" = true ∧ mentions_ci "eval" "1, b = 2" = false ∧
  parse_search_query "eval a = 1, b = 2" = Ok (Usage ∅ {["a"]} ∅).
Proof.
  repeat (split; [reflexivity|]).
  apply (C7_eval_first_assignment_is_created "a" "1, b = 2");
    reflexivity.
Defined.

(** ** C8: the fallback extractor *)

Lemma index_example : parse_search_query "index=main" = Ok no_usage.
Proof. vm_compute. reflexivity. Qed.

(** Claim C8 as the specification words it does not hold: the verb [index]
    is not a recognized one, and the stage [index=main] adds nothing to
    [used], not even the word [index] before the equals sign. *)
Lemma C8_counterexample :
  ¬ ∃ u, parse_search_query "index=main" = Ok u ∧ "index" ∈ used u.
Proof.
  intros (u & Hu & Hi). rewrite index_example in Hu.
  injection Hu as <-. simpl in Hi. by apply not_elem_of_empty in Hi.
Qed.

(** Claim C8 as the code has it: a stage whose verb [v] is one of [search],
    [where], [table], [fields], [fillnull], [coalesce] adds to [used] the
    word tokens right before an equals sign or, when there is none, every
    word token of the stage; a stage whose verb is neither one of these nor
    one of [rename], [eval], [stats], [lookup] adds nothing. *)
Theorem C8_fallback_for_listed_verbs_only fu v rest :
  is_name v = true → starts_with Char.isword rest = false →
  bool_decide (lower v ∈ recognized_verbs) = false →
  parse_command fu (v ++ rest)
  = Ok (if bool_decide (lower v ∈ fallback_verbs)
        then foldl add_used fu (fallback_fields (v ++ rest))
        else fu).
Proof.
  intros Hv Hrest Hverb. apply bool_decide_eq_false in Hverb.
  unfold recognized_verbs in Hverb. rewrite !not_elem_of_cons in Hverb.
  destruct Hverb as (H1 & H2 & H3 & H4 & _).
  apply String.eqb_neq in H1, H2, H3, H4.
  unfold parse_command. rewrite verb_match by done.
  cbn [not_none mbind result_bind Re.group Re.caps Re.assoc Nat.eqb].
  rewrite H1, H2, H3, H4, findall_key_eq, findall_word.
  unfold fallback_fields.
  destruct (bool_decide _); [|done]. by destruct (keys_before_eq _).
Qed.

Lemma C8_witness :
  is_name "where" = true ∧ starts_with Char.isword " count > 100" = false ∧
  bool_decide (lower "where" ∈ recognized_verbs) = false ∧
  parse_command no_usage ("where" ++ " count > 100")
  = Ok (if bool_decide (lower "where" ∈ fallback_verbs)
        then foldl add_used no_usage
               (fallback_fields ("where" ++ " count > 100"))
        else no_usage).
Proof.
  repeat (split; [reflexivity|]).
  apply (C8_fallback_for_listed_verbs_only no_usage "where" " count > 100");
    reflexivity.
Defined.

(** ** C9: no exception *)

(** Claim C9: on every text each of the four extractors returns a list, and
    the empty list when its pattern finds no match; the analysis of every
    query returns a usage record and the compliance check a list of
    violations. *)
Theorem C9_analysis_never_raises name q cmd :
  (∃ l, extract_fields_from_rename cmd = Ok l)
  ∧ (∃ l, extract_fields_from_eval cmd = Ok l)
  ∧ (∃ l, extract_fields_from_stats cmd = Ok l)
  ∧ (∃ l, extract_fields_from_lookup cmd = Ok l)
  ∧ (Re.findall_tuples true Pattern.rename 3 cmd = [] →
     extract_fields_from_rename cmd = Ok [])
  ∧ (Re.findall true Pattern.eval cmd = [] →
     extract_fields_from_eval cmd = Ok [])
  ∧ (Re.findall_tuples true Pattern.stats 2 cmd = [] →
     extract_fields_from_stats cmd = Ok [])
  ∧ (Re.findall_tuples true Pattern.lookup 3 cmd = [] →
     extract_fields_from_lookup cmd = Ok [])
  ∧ (∃ fu, parse_search_query q = Ok fu)
  ∧ (∃ vs, check_cim_compliance name q = Ok vs).
Proof.
  split; [apply rename_total|]. split; [apply eval_total|].
  split; [apply stats_total|]. split; [apply lookup_total|].
  split; [by unfold extract_fields_from_rename; intros ->|].
  split; [by unfold extract_fields_from_eval; intros ->|].
  split; [by unfold extract_fields_from_stats; intros ->|].
  split; [by unfold extract_fields_from_lookup; intros ->|].
  destruct (parse_commands_total (commands q) no_usage) as [fu Hfu].
  split; [by exists fu|].
  unfold check_cim_compliance, parse_search_query. rewrite Hfu. by eexists.
Qed.

Lemma C9_witness :
  Re.findall_tuples true Pattern.stats 2 "stats count" = []
  ∧ extract_fields_from_stats "stats count" = Ok [].
Proof.
  split; [reflexivity|].
  destruct (C9_analysis_never_raises "" "" "stats count")
    as (_ & _ & _ & _ & _ & _ & H & _).
  apply H. reflexivity.
Defined.

(** ** C10: the search name *)

(** Claim C10: the violations of a query do not depend on the name given
    with it. *)
Theorem C10_search_name_is_ignored n1 n2 q :
  check_cim_compliance n1 q = check_cim_compliance n2 q.
Proof. reflexivity. Qed.

(** * Further properties *)

(** * Further properties of [cim_validation] *)

(** ** Usage records add up *)

Lemma usage_eq a b :
  renamed a = renamed b → created a = created b → used a = used b → a = b.
Proof. destruct a, b. simpl. by intros -> -> ->. Qed.

Lemma usage_union_empty_r a : usage_union a no_usage = a.
Proof.
  apply usage_eq; simpl; apply (right_id_L ∅ (∪)).
Qed.

Lemma usage_union_assoc a b c :
  usage_union a (usage_union b c) = usage_union (usage_union a b) c.
Proof. apply usage_eq; simpl; apply (assoc_L (∪)). Qed.

Lemma foldl_add_used fu l :
  foldl add_used fu l = usage_union fu (foldl add_used no_usage l).
Proof.
  revert fu. induction l as [|f l IH]; intros fu.
  - by rewrite usage_union_empty_r.
  - simpl. rewrite IH, (IH (add_used no_usage f)), usage_union_assoc.
    f_equal. apply usage_eq; simpl.
    + by rewrite (right_id_L ∅ (∪)).
    + by rewrite (right_id_L ∅ (∪)).
    + by rewrite (right_id_L ∅ (∪)), (comm_L (∪)).
Qed.

Lemma foldl_add_created fu l :
  foldl add_created fu l = usage_union fu (foldl add_created no_usage l).
Proof.
  revert fu. induction l as [|f l IH]; intros fu.
  - by rewrite usage_union_empty_r.
  - simpl. rewrite IH, (IH (add_created no_usage f)), usage_union_assoc.
    f_equal. apply usage_eq; simpl.
    + by rewrite (right_id_L ∅ (∪)).
    + by rewrite (right_id_L ∅ (∪)), (comm_L (∪)).
    + by rewrite (right_id_L ∅ (∪)).
Qed.

Lemma foldl_add_renamed fu (l : list (string * string)) :
  foldl (fun fu '(old, new) => add_renamed fu new) fu l
  = usage_union fu
      (foldl (fun fu '(old, new) => add_renamed fu new) no_usage l).
Proof.
  revert fu. induction l as [|[o n] l IH]; intros fu.
  - by rewrite usage_union_empty_r.
  - simpl. rewrite IH, (IH (add_renamed no_usage n)), usage_union_assoc.
    f_equal. apply usage_eq; simpl.
    + by rewrite (right_id_L ∅ (∪)), (comm_L (∪)).
    + by rewrite (right_id_L ∅ (∪)).
    + by rewrite (right_id_L ∅ (∪)).
Qed.

(** What a command adds does not depend on what is already there. *)
Lemma parse_command_adds fu cmd d :
  parse_command no_usage cmd = Ok d →
  parse_command fu cmd = Ok (usage_union fu d).
Proof.
  unfold parse_command.
  destruct (Re.re_match false Pattern.verb cmd) as [m|];
    [|intros [= <-]; by rewrite usage_union_empty_r].
  destruct (not_none (Re.group m 1)) as [name|e]; [|done].
  cbn [mbind result_bind].
  repeat case_match; try (intros [= <-]; by rewrite usage_union_empty_r).
  - destruct (extract_fields_from_rename cmd) as [l|]; [|done].
    cbn [mbind result_bind]. intros [= <-]. by rewrite foldl_add_renamed.
  - destruct (extract_fields_from_eval cmd) as [l|]; [|done].
    cbn [mbind result_bind]. intros [= <-]. by rewrite foldl_add_created.
  - destruct (extract_fields_from_stats cmd) as [l|]; [|done].
    cbn [mbind result_bind]. intros [= <-]. by rewrite foldl_add_used.
  - destruct (extract_fields_from_lookup cmd) as [l|]; [|done].
    cbn [mbind result_bind]. intros [= <-]. by rewrite foldl_add_used.
  - intros [= <-]. by rewrite foldl_add_used.
  - intros [= <-]. by rewrite foldl_add_used.
Qed.

Lemma parse_command_stage fu cmd :
  parse_command fu cmd = Ok (usage_union fu (stage_usage cmd)).
Proof.
  unfold stage_usage.
  destruct (parse_command_total no_usage cmd) as [d E]. rewrite E.
  by apply parse_command_adds.
Qed.

(** The loop over the commands collects what each of them contributes. *)
Lemma parse_commands_stages cmds : ∀ fu,
  parse_commands fu cmds
  = Ok (foldl (fun u cmd => usage_union u (stage_usage cmd)) fu cmds).
Proof.
  induction cmds as [|cmd cmds IH]; intros fu; [done|].
  simpl. rewrite parse_command_stage. cbn [mbind result_bind]. apply IH.
Qed.

Lemma stages_app fu l1 l2 :
  foldl (fun u cmd => usage_union u (stage_usage cmd)) fu (l1 ++ l2)
  = usage_union
      (foldl (fun u cmd => usage_union u (stage_usage cmd)) fu l1)
      (foldl (fun u cmd => usage_union u (stage_usage cmd)) no_usage l2).
Proof.
  rewrite foldl_app.
  generalize (foldl (fun u cmd => usage_union u (stage_usage cmd)) fu l1).
  induction l2 as [|c l2 IH] using rev_ind; intros u.
  - by rewrite usage_union_empty_r.
  - rewrite !foldl_app. simpl. by rewrite IH, usage_union_assoc.
Qed.

Lemma stages_renamed x cmds : ∀ fu,
  x ∈ renamed (foldl (fun u cmd => usage_union u (stage_usage cmd)) fu cmds)
  ↔ x ∈ renamed fu ∨ ∃ cmd, cmd ∈ cmds ∧ x ∈ renamed (stage_usage cmd).
Proof.
  induction cmds as [|c cmds IH]; intros fu; simpl.
  - split; [by left|]. intros [H|(c & H & _)]; [done|]. by inversion H.
  - rewrite IH. simpl. rewrite elem_of_union. split.
    + intros [[H|H]|(c' & H1 & H2)]; [by left| |].
      * right. exists c. split; [left|done].
      * right. exists c'. split; [by right|done].
    + intros [H|(c' & H1 & H2)]; [by left; left|].
      apply elem_of_cons in H1 as [->|H1]; [by left; right|].
      right. by exists c'.
Qed.

Lemma stages_created x cmds : ∀ fu,
  x ∈ created (foldl (fun u cmd => usage_union u (stage_usage cmd)) fu cmds)
  ↔ x ∈ created fu ∨ ∃ cmd, cmd ∈ cmds ∧ x ∈ created (stage_usage cmd).
Proof.
  induction cmds as [|c cmds IH]; intros fu; simpl.
  - split; [by left|]. intros [H|(c & H & _)]; [done|]. by inversion H.
  - rewrite IH. simpl. rewrite elem_of_union. split.
    + intros [[H|H]|(c' & H1 & H2)]; [by left| |].
      * right. exists c. split; [left|done].
      * right. exists c'. split; [by right|done].
    + intros [H|(c' & H1 & H2)]; [by left; left|].
      apply elem_of_cons in H1 as [->|H1]; [by left; right|].
      right. by exists c'.
Qed.

Lemma stages_used x cmds : ∀ fu,
  x ∈ used (foldl (fun u cmd => usage_union u (stage_usage cmd)) fu cmds)
  ↔ x ∈ used fu ∨ ∃ cmd, cmd ∈ cmds ∧ x ∈ used (stage_usage cmd).
Proof.
  induction cmds as [|c cmds IH]; intros fu; simpl.
  - split; [by left|]. intros [H|(c & H & _)]; [done|]. by inversion H.
  - rewrite IH. simpl. rewrite elem_of_union. split.
    + intros [[H|H]|(c' & H1 & H2)]; [by left| |].
      * right. exists c. split; [left|done].
      * right. exists c'. split; [by right|done].
    + intros [H|(c' & H1 & H2)]; [by left; left|].
      apply elem_of_cons in H1 as [->|H1]; [by left; right|].
      right. by exists c'.
Qed.

Lemma stages_within l1 l2 :
  l1 ⊆ l2 →
  usage_within
    (foldl (fun u cmd => usage_union u (stage_usage cmd)) no_usage l1)
    (foldl (fun u cmd => usage_union u (stage_usage cmd)) no_usage l2).
Proof.
  intros Hl. repeat split; intros x.
  - rewrite !stages_renamed. intros [H|(c & H1 & H2)]; [by left|].
    right. exists c. split; [by apply Hl|done].
  - rewrite !stages_created. intros [H|(c & H1 & H2)]; [by left|].
    right. exists c. split; [by apply Hl|done].
  - rewrite !stages_used. intros [H|(c & H1 & H2)]; [by left|].
    right. exists c. split; [by apply Hl|done].
Qed.

Lemma usage_within_antisym a b :
  usage_within a b → usage_within b a → a = b.
Proof.
  intros (H1 & H2 & H3) (H1' & H2' & H3').
  apply usage_eq; apply set_eq; intros x; split; auto.
Qed.

Lemma parse_search_query_stages q :
  parse_search_query q
  = Ok (foldl (fun u cmd => usage_union u (stage_usage cmd)) no_usage
          (commands q)).
Proof. apply parse_commands_stages. Qed.

(** X1: the usage record of [a|b] is the union of those of [a] and [b]. *)
Theorem X1_usage_of_a_pipe_is_the_union a b :
  ∃ ua ub,
    parse_search_query a = Ok ua ∧ parse_search_query b = Ok ub ∧
    parse_search_query (a ++ "|" ++ b) = Ok (usage_union ua ub).
Proof.
  eexists _, _. rewrite !parse_search_query_stages.
  split; [done|]. split; [done|].
  by rewrite commands_app_pipe, stages_app.
Qed.

(** X2: more stages, more fields, more violations. *)
Theorem X2_more_stages_more_findings name q1 q2 :
  commands q1 ⊆ commands q2 →
  ∃ u1 u2 v1 v2,
    parse_search_query q1 = Ok u1 ∧ parse_search_query q2 = Ok u2 ∧
    usage_within u1 u2 ∧
    check_cim_compliance name q1 = Ok v1 ∧
    check_cim_compliance name q2 = Ok v2 ∧
    v1 ⊆ v2.
Proof.
  intros Hl. unfold check_cim_compliance.
  rewrite !parse_search_query_stages. cbn [mbind result_bind].
  eexists _, _, _, _. do 2 (split; [done|]).
  pose proof (stages_within _ _ Hl) as Hw.
  split; [done|]. do 2 (split; [done|]).
  intros v. rewrite !list_elem_of_In, !in_flat_map.
  intros (f & Hf & Hv). exists f. split; [|done].
  revert Hf. rewrite <- !list_elem_of_In, !elem_of_elements.
  destruct Hw as (H1 & H2 & H3). unfold all_fields_of.
  rewrite !elem_of_union. intros [[H|H]|H]; auto.
Qed.

Lemma X2_witness :
  commands "eval a=1" ⊆ commands "stats count by b | eval a=1" ∧
  ∃ u1 u2 v1 v2,
    parse_search_query "eval a=1" = Ok u1 ∧
    parse_search_query "stats count by b | eval a=1" = Ok u2 ∧
    usage_within u1 u2 ∧
    check_cim_compliance "n" "eval a=1" = Ok v1 ∧
    check_cim_compliance "n" "stats count by b | eval a=1" = Ok v2 ∧
    v1 ⊆ v2.
Proof.
  assert (H : commands "eval a=1" ⊆ commands "stats count by b | eval a=1").
  { vm_compute. intros c Hc. apply list_elem_of_singleton in Hc as ->.
    right. left. }
  split; [exact H|]. exact (X2_more_stages_more_findings "n" _ _ H).
Defined.

(** X3: the analysis depends on the set of stages only: two queries with
    the same stages, in whatever order and however often repeated, have the
    same usage record and the same violations; the order in which the
    violations are listed is left open. *)
Theorem X3_order_and_repetition_do_not_matter name q1 q2 :
  (∀ cmd, cmd ∈ commands q1 ↔ cmd ∈ commands q2) →
  parse_search_query q1 = parse_search_query q2 ∧
  ∃ v1 v2,
    check_cim_compliance name q1 = Ok v1 ∧
    check_cim_compliance name q2 = Ok v2 ∧
    v1 ≡ₚ v2.
Proof.
  intros Hl.
  assert (E : parse_search_query q1 = parse_search_query q2).
  { rewrite !parse_search_query_stages. f_equal.
    apply usage_within_antisym; apply stages_within; intros c; apply Hl. }
  split; [done|]. unfold check_cim_compliance. rewrite E.
  rewrite parse_search_query_stages. cbn [mbind result_bind].
  by eexists _, _.
Qed.

Lemma X3_witness :
  (∀ cmd, cmd ∈ commands "search f5=1 | search f0=1 | search f5=1"
          ↔ cmd ∈ commands "search f0=1 | search f5=1") ∧
  parse_search_query "search f5=1 | search f0=1 | search f5=1"
  = parse_search_query "search f0=1 | search f5=1" ∧
  ∃ v1 v2,
    check_cim_compliance "n" "search f5=1 | search f0=1 | search f5=1"
    = Ok v1 ∧
    check_cim_compliance "n" "search f0=1 | search f5=1" = Ok v2 ∧
    v1 ≡ₚ v2.
Proof.
  assert (H : ∀ cmd,
            cmd ∈ commands "search f5=1 | search f0=1 | search f5=1"
            ↔ cmd ∈ commands "search f0=1 | search f5=1").
  { intros cmd. vm_compute commands. rewrite !elem_of_cons, elem_of_nil.
    tauto. }
  split; [exact H|].
  exact (X3_order_and_repetition_do_not_matter "n" _ _ H).
Defined.

(** ** Stripping *)

Lemma lstrip_all_chars p s :
  all_chars p s = true → all_chars p (lstrip s) = true.
Proof.
  induction s as [|c s IH]; [done|]. simpl.
  intros [Hc Hs]%andb_true_iff.
  destruct (Char.isspace c); [by apply IH|]. simpl. by rewrite Hc, Hs.
Qed.

Lemma rstrip_all_chars p s :
  all_chars p s = true → all_chars p (rstrip s) = true.
Proof.
  induction s as [|c s IH]; [done|]. simpl.
  intros [Hc Hs]%andb_true_iff. specialize (IH Hs).
  destruct (rstrip s) as [|c' r].
  - destruct (Char.isspace c); [done|]. simpl. by rewrite Hc.
  - cbn [all_chars] in *. by rewrite Hc, IH.
Qed.

Lemma strip_all_chars p s :
  all_chars p s = true → all_chars p (strip s) = true.
Proof. intros H. by apply rstrip_all_chars, lstrip_all_chars. Qed.

Lemma lstrip_starts s : starts_with Char.isspace (lstrip s) = false.
Proof.
  induction s as [|c s IH]; [done|]. simpl.
  destruct (Char.isspace c) eqn:E; [done|]. simpl. by rewrite E.
Qed.

Lemma rstrip_starts p s :
  starts_with p s = false → starts_with p (rstrip s) = false.
Proof.
  destruct s as [|c s]; [done|]. simpl. intros Hc.
  destruct (rstrip s); [|done]. by destruct (Char.isspace c).
Qed.

Lemma rstrip_idemp s : rstrip (rstrip s) = rstrip s.
Proof.
  induction s as [|c s IH]; [done|]. simpl.
  destruct (rstrip s) as [|c' r] eqn:E.
  - destruct (Char.isspace c) eqn:Ec; [done|]. simpl. by rewrite Ec.
  - change (rstrip (String c (String c' r))) with
      (match rstrip (String c' r) with
       | "" => if Char.isspace c then "" else String c ""
       | r0 => String c r0
       end).
    by rewrite IH.
Qed.

Lemma strip_idemp s : strip (strip s) = strip s.
Proof.
  unfold strip.
  rewrite (lstrip_id (rstrip (lstrip s)))
    by apply rstrip_starts, lstrip_starts.
  apply rstrip_idemp.
Qed.

Lemma lstrip_spaces s : all_chars Char.isspace s = true → lstrip s = "".
Proof.
  induction s as [|c s IH]; [done|]. simpl.
  intros [-> Hs]%andb_true_iff. by apply IH.
Qed.

Lemma strip_blank s : strip s = "" ↔ all_chars Char.isspace s = true.
Proof.
  split.
  - intros E. by apply lstrip_blank, rstrip_blank.
  - intros H. unfold strip. by rewrite lstrip_spaces.
Qed.

(** ** Pieces *)

Lemma split_pieces (sep : ascii) p s :
  p sep = true →
  (Forall (fun piece => all_chars p piece = true) (split sep s)
   ↔ all_chars p s = true).
Proof.
  intros Hsep. induction s as [|c s IH]; simpl.
  - split; [done|]. intros _. by constructor.
  - destruct (Ascii.eqb_spec c sep) as [->|Hne].
    + rewrite Hsep. simpl. rewrite <- IH. split.
      * by inversion 1.
      * intros H. by constructor.
    + pose proof (split_nonempty sep s) as Hn.
      destruct (split sep s) as [|piece pieces]; [done|].
      rewrite andb_true_iff, <- IH. split.
      * inversion 1 as [|? ? H1 H2]; subst. simpl in H1.
        apply andb_true_iff in H1 as [H1 H1']. split; [done|].
        by constructor.
      * intros [Hc H]. inversion H as [|? ? H1 H2]; subst.
        constructor; [|done]. simpl. by rewrite Hc, H1.
Qed.

Lemma split_no_sep (sep : ascii) s :
  Forall (fun piece => all_chars (fun c => negb (Ascii.eqb c sep)) piece = true)
         (split sep s).
Proof.
  induction s as [|c s IH]; simpl.
  - by constructor.
  - destruct (Ascii.eqb c sep) eqn:E.
    + by constructor.
    + pose proof (split_nonempty sep s) as Hn.
      destruct (split sep s) as [|piece pieces]; [done|].
      inversion IH as [|? ? H1 H2]; subst.
      constructor; [|done]. simpl. by rewrite E, H1.
Qed.

Lemma blank_pieces s :
  blank s = true ↔
  Forall (fun piece => all_chars Char.isspace piece = true) (split "|" s).
Proof.
  unfold blank. induction s as [|c s IH]; simpl.
  - split; [|done]. intros _. by constructor.
  - destruct (Ascii.eqb_spec c "|") as [->|Hne].
    + simpl. rewrite IH. split.
      * intros H. by constructor.
      * by inversion 1.
    + rewrite orb_false_r.
      pose proof (split_nonempty "|" s) as Hn.
      destruct (split "|" s) as [|piece pieces]; [done|].
      rewrite andb_true_iff, IH. split.
      * intros [Hc H]. inversion H as [|? ? H1 H2]; subst.
        constructor; [|done]. simpl. by rewrite Hc, H1.
      * inversion 1 as [|? ? H1 H2]; subst. simpl in H1.
        apply andb_true_iff in H1 as [H1 H1']. split; [done|].
        by constructor.
Qed.

Lemma commands_nil q : commands q = [] ↔ blank q = true.
Proof.
  rewrite blank_pieces. unfold commands.
  induction (split "|" q) as [|piece pieces IH]; simpl.
  - split; [by constructor|done].
  - rewrite filter_cons. destruct (decide (strip piece ≠ "")) as [H|H].
    + split; [done|]. inversion 1 as [|? ? H1 H2]; subst.
      by apply strip_blank in H1.
    + apply dec_stable in H. rewrite IH. split.
      * intros Hp. constructor; [by apply strip_blank|done].
      * by inversion 1.
Qed.

(** X4: a query of white space and pipes only has no stage, no field and
    no violation; no other query has no stage. *)
Theorem X4_blank_query name q :
  (commands q = [] ↔ blank q = true) ∧
  (blank q = true →
   parse_search_query q = Ok no_usage ∧
   check_cim_compliance name q = Ok []).
Proof.
  split; [apply commands_nil|]. intros Hb.
  apply commands_nil in Hb. unfold check_cim_compliance, parse_search_query.
  rewrite Hb. simpl. split; [done|].
  unfold all_fields_of. simpl.
  by rewrite !(left_id_L ∅ (∪)), elements_empty.
Qed.

Lemma X4_witness :
  blank "  |   ||" = true ∧
  parse_search_query "  |   ||" = Ok no_usage ∧
  check_cim_compliance "n" "  |   ||" = Ok [].
Proof.
  split; [reflexivity|].
  exact (proj2 (X4_blank_query "n" "  |   ||") eq_refl).
Defined.

(** X5: every stage of the segmenter is non-empty, stripped on both sides
    and free of pipes. *)
Theorem X5_stages_are_stripped_and_pipe_free q cmd :
  cmd ∈ commands q →
  cmd ≠ "" ∧ strip cmd = cmd ∧ no_pipe cmd = true ∧
  starts_with Char.isspace cmd = false.
Proof.
  unfold commands. rewrite list_elem_of_filter, list_elem_of_fmap.
  intros [Hne (piece & -> & Hp)]. split; [done|].
  split; [apply strip_idemp|]. split.
  - apply strip_all_chars.
    pose proof (split_no_sep "|" q) as H.
    rewrite Forall_forall in H. by apply H.
  - apply rstrip_starts, lstrip_starts.
Qed.

Lemma X5_witness :
  "stats count by b" ∈ commands " eval a=1 |  stats count by b  " ∧
  "stats count by b" ≠ "" ∧ strip "stats count by b" = "stats count by b" ∧
  no_pipe "stats count by b" = true ∧
  starts_with Char.isspace "stats count by b" = false.
Proof.
  assert (H : "stats count by b" ∈ commands " eval a=1 |  stats count by b  ").
  { vm_compute. right. left. }
  split; [exact H|].
  exact (X5_stages_are_stripped_and_pipe_free _ _ H).
Defined.

(** X6: a stage that does not begin with a word character has no verb and
    contributes nothing. *)
Theorem X6_stage_without_a_verb fu cmd :
  starts_with Char.isword cmd = false →
  parse_command fu cmd = Ok fu.
Proof.
  intros H. unfold parse_command.
  replace (Re.re_match false Pattern.verb cmd) with (@None Re.mstate);
    [done|].
  unfold Re.re_match, Re.match_here, Pattern.verb, Pattern.w.
  destruct cmd as [|c cmd]; [by vm_compute|].
  simpl in H. cbn. by rewrite H.
Qed.

Lemma X6_witness :
  starts_with Char.isword "`my_macro` src_ip=1" = false ∧
  parse_command no_usage "`my_macro` src_ip=1" = Ok no_usage.
Proof.
  split; [reflexivity|].
  exact (X6_stage_without_a_verb no_usage "`my_macro` src_ip=1" eq_refl).
Defined.

(** ** The alias index of any table *)

Lemma append_at_listed k v d c x :
  listed (append_at k v d) c x ↔ listed d c x ∨ (c = k ∧ x = v).
Proof.
  unfold listed. induction d as [|[k' vs] d IH]; simpl.
  - split.
    + intros (ks & H1 & H2). apply list_elem_of_singleton in H1.
      injection H1 as -> ->. apply list_elem_of_singleton in H2. by right.
    + intros [(ks & H & _)|[-> ->]]; [by apply elem_of_nil in H|].
      exists [v]. split; by left.
  - destruct (String.eqb_spec k k') as [<-|Hne].
    + split.
      * intros (ks & H1 & H2). apply elem_of_cons in H1 as [H1|H1].
        -- injection H1 as -> ->. apply elem_of_app in H2 as [H2|H2].
           ++ left. exists vs. split; [left|done].
           ++ apply list_elem_of_singleton in H2. by right.
        -- left. exists ks. split; [by right|done].
      * intros [(ks & H1 & H2)|[-> ->]].
        -- apply elem_of_cons in H1 as [H1|H1].
           ++ injection H1 as -> ->. exists (vs ++ [v])%list.
              split; [left|]. apply elem_of_app. by left.
           ++ exists ks. split; [by right|done].
        -- exists (vs ++ [v])%list. split; [left|].
           apply elem_of_app. right. left.
    + split.
      * intros (ks & H1 & H2). apply elem_of_cons in H1 as [H1|H1].
        -- injection H1 as -> ->. left. exists vs. split; [left|done].
        -- destruct (proj1 IH) as [(ks' & H3 & H4)|H3]; [by exists ks| |].
           ++ left. exists ks'. split; [by right|done].
           ++ by right.
      * intros [(ks & H1 & H2)|H].
        -- apply elem_of_cons in H1 as [H1|H1].
           ++ injection H1 as -> ->. exists vs. split; [left|done].
           ++ destruct (proj2 IH) as (ks' & H3 & H4).
              { left. by exists ks. }
              exists ks'. split; [by right|done].
        -- destruct (proj2 IH) as (ks' & H3 & H4); [by right|].
           exists ks'. split; [by right|done].
Qed.

Lemma append_at_keys k v d c :
  c ∈ map fst (append_at k v d) ↔ c ∈ map fst d ∨ c = k.
Proof.
  induction d as [|[k' vs] d IH]; simpl.
  - rewrite list_elem_of_singleton. split; [by right|].
    intros [H|H]; [by apply elem_of_nil in H|done].
  - destruct (String.eqb_spec k k') as [<-|Hne]; simpl.
    + rewrite elem_of_cons. split; [by left|]. intros [H | ->]; [done|by left].
    + rewrite !elem_of_cons, IH. tauto.
Qed.

Lemma append_at_NoDup k v d :
  NoDup (map fst d) → NoDup (map fst (append_at k v d)).
Proof.
  induction d as [|[k' vs] d IH]; simpl.
  - intros _. apply NoDup_singleton.
  - destruct (String.eqb_spec k k') as [<-|Hne]; simpl; [done|].
    rewrite !NoDup_cons. intros [H1 H2]. split; [|by apply IH].
    rewrite append_at_keys. intros [H|H]; [done|]. by apply Hne.
Qed.

Lemma append_at_nonempty k v d :
  Forall (fun ac => ac.2 ≠ []) d →
  Forall (fun ac => ac.2 ≠ []) (append_at k v d).
Proof.
  induction d as [|[k' vs] d IH]; simpl.
  - intros _. by repeat constructor.
  - destruct (String.eqb_spec k k') as [<-|Hne].
    + inversion 1; subst. constructor; [|done]. simpl. by destruct vs.
    + inversion 1; subst. constructor; [done|]. by apply IH.
Qed.

Lemma index_flat table : ∀ acc,
  foldl (fun aliases (sm : string * list (string * string)) =>
           foldl (fun aliases (cc : string * string) =>
                    append_at cc.2 cc.1 aliases) aliases sm.2)
        acc table
  = foldl (fun aliases (cc : string * string) => append_at cc.2 cc.1 aliases)
          acc (pairs_of table).
Proof.
  unfold pairs_of.
  induction table as [|[src m] table IH]; intros acc; [done|].
  simpl. by rewrite IH, foldl_app.
Qed.

Lemma index_listed pairs c x : ∀ acc,
  listed (foldl (fun aliases (cc : string * string) =>
                   append_at cc.2 cc.1 aliases) acc pairs) c x
  ↔ listed acc c x ∨ (x, c) ∈ pairs.
Proof.
  induction pairs as [|[k c'] pairs IH]; intros acc; simpl.
  - split; [by left|]. intros [H|H]; [done|by apply elem_of_nil in H].
  - rewrite IH, append_at_listed, elem_of_cons. split.
    + intros [[H|[-> ->]]|H]; auto.
    + intros [H|[H|H]]; auto. injection H as -> ->. auto.
Qed.

Lemma index_keys pairs c : ∀ acc,
  c ∈ map fst (foldl (fun aliases (cc : string * string) =>
                        append_at cc.2 cc.1 aliases) acc pairs)
  ↔ c ∈ map fst acc ∨ c ∈ map snd pairs.
Proof.
  induction pairs as [|[k c'] pairs IH]; intros acc; simpl.
  - split; [by left|]. intros [H|H]; [done|by apply elem_of_nil in H].
  - rewrite IH, append_at_keys, elem_of_cons. tauto.
Qed.

Lemma index_NoDup pairs : ∀ acc,
  NoDup (map fst acc) →
  NoDup (map fst (foldl (fun aliases (cc : string * string) =>
                           append_at cc.2 cc.1 aliases) acc pairs)).
Proof.
  induction pairs as [|[k c'] pairs IH]; intros acc H; [done|].
  simpl. by apply IH, append_at_NoDup.
Qed.

Lemma index_nonempty pairs : ∀ acc,
  Forall (fun ac => ac.2 ≠ []) acc →
  Forall (fun ac => ac.2 ≠ [])
         (foldl (fun aliases (cc : string * string) =>
                   append_at cc.2 cc.1 aliases) acc pairs).
Proof.
  induction pairs as [|[k c'] pairs IH]; intros acc H; [done|].
  simpl. by apply IH, append_at_nonempty.
Qed.

Lemma listed_nil c x : ¬ listed [] c x.
Proof. intros (ks & H & _). by apply elem_of_nil in H. Qed.

Lemma get_field_aliases_listed table c k :
  listed (get_field_aliases_of table) c k ↔ (k, c) ∈ pairs_of table.
Proof.
  unfold get_field_aliases_of. rewrite index_flat, index_listed.
  split; [|by right]. intros [H|H]; [by apply listed_nil in H|done].
Qed.

Lemma get_field_aliases_NoDup table :
  NoDup (map fst (get_field_aliases_of table)).
Proof.
  unfold get_field_aliases_of. rewrite index_flat.
  apply index_NoDup. constructor.
Qed.

(** X7: for every mapping table, the alias index is its reverse mapping:
    every canonical name of the table is a key of the index, once, no
    other name is, and the custom fields listed under a canonical name
    are those that some source maps to it. *)
Theorem X7_alias_index_is_the_reverse_mapping table :
  NoDup (map fst (get_field_aliases_of table)) ∧
  (∀ c, c ∈ map fst (get_field_aliases_of table) ↔ canonical table c) ∧
  (∀ c ks, (c, ks) ∈ get_field_aliases_of table → ks ≠ []) ∧
  (∀ c k, listed (get_field_aliases_of table) c k
          ↔ ∃ source mappings,
              (source, mappings) ∈ table ∧ (k, c) ∈ mappings).
Proof.
  split; [apply get_field_aliases_NoDup|]. split; [|split].
  - intros c. unfold get_field_aliases_of, canonical.
    rewrite index_flat, index_keys. split.
    + intros [H|H]; [by apply elem_of_nil in H|].
      apply list_elem_of_fmap in H as ([k c'] & -> & H).
      apply elem_of_pairs_of in H as (src & m & H1 & H2).
      by exists src, m, k.
    + intros (src & m & k & H1 & H2). right.
      apply list_elem_of_fmap. exists (k, c). split; [done|].
      apply elem_of_pairs_of. by exists src, m.
  - intros c ks H.
    assert (Forall (fun ac => ac.2 ≠ []) (get_field_aliases_of table)) as F.
    { unfold get_field_aliases_of. rewrite index_flat.
      apply index_nonempty. constructor. }
    rewrite Forall_forall in F. exact (F _ H).
  - intros c k. rewrite get_field_aliases_listed. apply elem_of_pairs_of.
Qed.

(** X8: for every mapping table, the suggestions computed from its alias
    index are the canonical names of the keys that match the field, letter
    case apart, each of them once. *)
Theorem X8_suggestions_for_any_table table f :
  NoDup (suggest_alias_of (get_field_aliases_of table) f) ∧
  ∀ c, c ∈ suggest_alias_of (get_field_aliases_of table) f
       ↔ ∃ source mappings k,
           (source, mappings) ∈ table ∧ (k, c) ∈ mappings ∧
           lower k = lower f.
Proof.
  assert (M : ∀ al c,
    c ∈ suggest_alias_of al f
    ↔ ∃ ks, (c, ks) ∈ al ∧ lower f ∈ map lower ks).
  { intros al c. unfold suggest_alias_of.
    rewrite list_elem_of_In, in_flat_map. split.
    - intros ([c' ks] & H1 & H2). simpl in H2.
      destruct (bool_decide_reflect (lower f ∈ map lower ks)) as [E|];
        [|done].
      destruct H2 as [->|[]]. exists ks. by rewrite list_elem_of_In.
    - intros (ks & H1 & H2). exists (c, ks). rewrite <- list_elem_of_In.
      split; [done|]. simpl. rewrite bool_decide_eq_true_2 by done.
      by left. }
  split.
  - pose proof (get_field_aliases_NoDup table) as N.
    unfold suggest_alias_of.
    induction (get_field_aliases_of table) as [|[c ks] al IH]; simpl.
    + constructor.
    + simpl in N. apply NoDup_cons in N as [N1 N2].
      destruct (bool_decide _); simpl; [|by apply IH].
      constructor; [|by apply IH].
      intros H. apply N1.
      apply (M al c) in H as (ks' & H & _).
      apply list_elem_of_fmap. by exists (c, ks').
  - intros c. rewrite M. split.
    + intros (ks & H1 & H2).
      apply list_elem_of_fmap in H2 as (k & E & Hk).
      assert (listed (get_field_aliases_of table) c k) as L by by exists ks.
      apply get_field_aliases_listed, elem_of_pairs_of in L
        as (src & m & L1 & L2).
      by exists src, m, k.
    + intros (src & m & k & H1 & H2 & E).
      assert (listed (get_field_aliases_of table) c k) as (ks & L1 & L2).
      { apply get_field_aliases_listed, elem_of_pairs_of. by exists src, m. }
      exists ks. split; [done|]. rewrite <- E.
      apply list_elem_of_fmap. by exists k.
Qed.

(** ** One suggestion per field *)

Lemma suggest_alias_short f : (length (suggest_alias f) ≤ 1)%nat.
Proof.
  unfold suggest_alias. rewrite suggest_alias_eqb.
  generalize (lower f) as lf. intros lf.
  let al := eval vm_compute in (lowered_aliases get_field_aliases) in
  change (lowered_aliases get_field_aliases) with al.
  cbn [flat_map existsb fst snd app orb].
  repeat match goal with
  | |- context [String.eqb ?k lf] =>
      destruct (String.eqb_spec k lf) as [<-|_]; [vm_compute; lia|]
  end.
  simpl. lia.
Qed.

(** X9: a field that is a key of the module's table, in any letter case,
    gets exactly one suggestion, the canonical name of that key. *)
Theorem X9_one_suggestion_for_a_known_key source mappings k c f :
  (source, mappings) ∈ CIM_FIELD_MAPPINGS → (k, c) ∈ mappings →
  lower f = lower k →
  suggest_alias f = [c].
Proof.
  intros H1 H2 E.
  assert (c ∈ suggest_alias f) as Hc.
  { rewrite suggest_alias_refines. apply elem_of_suggestAliases.
    by exists source, mappings, k. }
  pose proof (suggest_alias_short f) as L.
  destruct (suggest_alias f) as [|c1 [|c2 l]].
  - by apply elem_of_nil in Hc.
  - by apply list_elem_of_singleton in Hc as ->.
  - simpl in L. lia.
Qed.

Lemma X9_witness : suggest_alias "SRC_IP" = ["source"].
Proof.
  apply (X9_one_suggestion_for_a_known_key "common"
           [ ("src_ip", "source"); ("dst_ip", "destination");
             ("user", "user"); ("host", "host");
             ("sourcetype", "sourcetype"); ("index", "index");
             ("source", "source"); ("event_id", "event_id");
             ("action", "action"); ("status", "status"); ("uri", "uri");
             ("method", "method") ] "src_ip").
  - left.
  - left.
  - reflexivity.
Defined.

(** * Properties of [formatter] *)

Lemma lstrip_pad w s :
  all_chars Char.isspace w = true → lstrip (w ++ s) = lstrip s.
Proof.
  induction w as [|c w IH]; [by rewrite sapp_nil_l|].
  rewrite sapp_cons. simpl. intros [Hc Hw]%andb_true_iff.
  rewrite Hc. by apply IH.
Qed.

Lemma rstrip_spaces w : all_chars Char.isspace w = true → rstrip w = "".
Proof.
  induction w as [|c w IH]; [done|]. simpl.
  intros [Hc Hw]%andb_true_iff. by rewrite IH, Hc.
Qed.

Lemma rstrip_pad s w :
  all_chars Char.isspace w = true → rstrip (s ++ w) = rstrip s.
Proof.
  intros Hw. induction s as [|c s IH].
  - rewrite sapp_nil_l. by apply rstrip_spaces.
  - rewrite sapp_cons. simpl. by rewrite IH.
Qed.

Lemma strip_pad_r s w :
  all_chars Char.isspace w = true → strip (s ++ w) = strip s.
Proof.
  intros Hw. unfold strip. induction s as [|c s IH].
  - rewrite sapp_nil_l, lstrip_spaces by done. done.
  - rewrite sapp_cons. simpl. destruct (Char.isspace c); [done|].
    rewrite <- sapp_cons. by apply rstrip_pad.
Qed.

Lemma strip_pad w s w' :
  all_chars Char.isspace w = true → all_chars Char.isspace w' = true →
  strip (w ++ s ++ w') = strip s.
Proof.
  intros Hw Hw'. rewrite <- (strip_pad_r s w' Hw'). unfold strip.
  by rewrite lstrip_pad.
Qed.

Lemma space_not_pipe c :
  Char.isspace c = true → negb (Ascii.eqb c "|") = true.
Proof. by_char c. Qed.

Lemma join_prefix sep p x l :
  join sep ((p ++ x) :: l) = p ++ join sep (x :: l).
Proof. destruct l; [done|]. simpl. by rewrite sapp_assoc. Qed.

Lemma join_app sep l1 l2 :
  l1 ≠ [] → l2 ≠ [] →
  join sep (l1 ++ l2) = join sep l1 ++ sep ++ join sep l2.
Proof.
  intros H1 H2. induction l1 as [|x l1 IH]; [done|].
  destruct l1 as [|y l1].
  - simpl. by destruct l2.
  - change (join sep ((x :: y :: l1) ++ l2))
      with (x ++ sep ++ join sep ((y :: l1) ++ l2)).
    rewrite IH by done.
    change (join sep (x :: y :: l1)) with (x ++ sep ++ join sep (y :: l1)).
    by rewrite !sapp_assoc.
Qed.

(** The lines of the output, stripped, are the stripped pieces of the
    input. *)
Lemma reformat_pieces ps : ∀ w p0,
  all_chars Char.isspace w = true →
  Forall (fun p => no_pipe p = true) (p0 :: ps) →
  map strip
      (split "|"
         (w ++ join newline
                 (strip p0 :: map (fun line => "  | " ++ strip line) ps)))
  = map strip (p0 :: ps).
Proof.
  induction ps as [|p1 ps IH]; intros w p0 Hw Hp.
  - inversion Hp as [|? ? H0 _]; subst. simpl.
    rewrite split_none.
    + simpl. rewrite <- (sapp_nil_r (strip p0)) at 1.
      by rewrite strip_pad, strip_idemp.
    + fold (no_pipe (w ++ strip p0)). rewrite no_pipe_app.
      apply andb_true_iff. split.
      * by apply (all_chars_impl Char.isspace), Hw; apply space_not_pipe.
      * by apply strip_all_chars.
  - inversion Hp as [|? ? H0 Hp']; subst.
    change (join newline
              (strip p0 :: map (fun line => "  | " ++ strip line) (p1 :: ps)))
      with (strip p0 ++ newline ++
            join newline
              (("  | " ++ strip p1)
               :: map (fun line => "  | " ++ strip line) ps)).
    rewrite join_prefix.
    replace (w ++ strip p0 ++ newline ++ "  | " ++
             join newline
               (strip p1 :: map (fun line => "  | " ++ strip line) ps))
      with ((w ++ strip p0 ++ newline ++ "  ") ++
            String "|" (" " ++
              join newline
                (strip p1 :: map (fun line => "  | " ++ strip line) ps)))
      by (by rewrite !sapp_assoc).
    rewrite split_app, map_app, (IH " " p1) by done.
    rewrite split_none.
    + simpl. f_equal. by rewrite strip_pad, strip_idemp.
    + fold (no_pipe (w ++ strip p0 ++ newline ++ "  ")).
      rewrite !no_pipe_app. rewrite !andb_true_iff. repeat split.
      * by apply (all_chars_impl Char.isspace), Hw; apply space_not_pipe.
      * by apply strip_all_chars.
Qed.

Lemma split_no_pipe q : Forall (fun p => no_pipe p = true) (split "|" q).
Proof. apply split_no_sep. Qed.

Lemma format_search_pieces q :
  ∃ p0 ps,
    split "|" q = p0 :: ps ∧
    format_search q
    = Ok (join newline
            (strip p0 :: map (fun line => "  | " ++ strip line) ps)).
Proof.
  unfold format_search. pose proof (split_nonempty "|" q) as Hn.
  destruct (split "|" q) as [|p0 ps]; [done|]. by exists p0, ps.
Qed.

Lemma format_search_strips q out :
  format_search q = Ok out →
  map strip (split "|" out) = map strip (split "|" q).
Proof.
  destruct (format_search_pieces q) as (p0 & ps & E & ->).
  intros [= <-]. rewrite E, <- (reformat_pieces ps "" p0); [done|done|].
  rewrite <- E. apply split_no_pipe.
Qed.

(** X10: [format_search] never raises; a query without a pipe is stripped,
    and the format of [a|b] is the format of [a], a line break, two
    spaces, a pipe, a space and the format of [b]. *)
Theorem X10_format_search_by_pieces a b :
  ∃ fa fb,
    format_search a = Ok fa ∧ format_search b = Ok fb ∧
    format_search (a ++ "|" ++ b) = Ok (fa ++ newline ++ "  | " ++ fb) ∧
    (no_pipe a = true → fa = strip a).
Proof.
  destruct (format_search_pieces a) as (a0 & la & Ea & Fa).
  destruct (format_search_pieces b) as (b0 & lb & Eb & Fb).
  eexists _, _. split; [exact Fa|]. split; [exact Fb|]. split.
  - unfold format_search.
    rewrite sapp_cons, sapp_nil_l, split_app, Ea, Eb. cbn [item0 mbind result_bind app tail].
    rewrite map_app. cbn [map].
    rewrite (app_comm_cons _ _ (strip a0)), join_app by done.
    by rewrite join_prefix.
  - intros Ha. rewrite split_none in Ea by done. by injection Ea as <- <-.
Qed.

Lemma X10_witness :
  ∃ fb, format_search " search index=web " = Ok "search index=web"
        ∧ format_search (" search index=web " ++ "|" ++ "stats count ")
          = Ok ("search index=web" ++ newline ++ "  | " ++ fb).
Proof.
  destruct (X10_format_search_by_pieces " search index=web " "stats count ")
    as (fa & fb & Ha & Hb & Hab & Hp).
  exists fb. rewrite (Hp eq_refl) in Ha, Hab. split; [exact Ha|exact Hab].
Defined.

(** X11: formatting does not change the stages of a query, so the
    formatted query has the same usage record and the same violations. *)
Theorem X11_formatting_keeps_the_analysis name q :
  ∃ out,
    format_search q = Ok out ∧
    commands out = commands q ∧
    parse_search_query out = parse_search_query q ∧
    check_cim_compliance name out = check_cim_compliance name q.
Proof.
  destruct (format_search_pieces q) as (p0 & ps & E & F).
  eexists. split; [exact F|].
  assert (C : commands
                (join newline
                   (strip p0 :: map (fun line => "  | " ++ strip line) ps))
              = commands q).
  { unfold commands. by rewrite (format_search_strips q _ F). }
  split; [exact C|].
  unfold check_cim_compliance, parse_search_query. by rewrite C.
Qed.

(** X12: formatting a formatted query changes nothing. *)
Theorem X12_format_search_is_idempotent q :
  ∃ out, format_search q = Ok out ∧ format_search out = Ok out.
Proof.
  destruct (format_search_pieces q) as (p0 & ps & E & F).
  eexists. split; [exact F|].
  pose proof (format_search_strips q _ F) as S.
  destruct (format_search_pieces
              (join newline
                 (strip p0 :: map (fun line => "  | " ++ strip line) ps)))
    as (o0 & os & Eo & ->).
  rewrite Eo, E in S. simpl in S. injection S as S0 S1.
  f_equal. f_equal. rewrite S0. f_equal.
  clear -S1. revert ps S1. induction os as [|o os IH]; intros [|p ps] S1;
    try done.
  simpl in S1. injection S1 as S1 S2. simpl.
  by rewrite S1, (IH ps S2).
Qed.

(** * Properties of [best_practices] *)

(** ** Searching and scanning *)

Lemma search_from_nil ic r pv :
  search_from ic r pv "" = Re.match_here ic r false pv "".
Proof. simpl. by destruct (Re.match_here ic r false pv ""). Qed.

Lemma search_from_hit ic r pv s m :
  Re.match_here ic r false pv s = Some m → search_from ic r pv s = Some m.
Proof. intros E. destruct s; simpl; by rewrite E. Qed.

Lemma search_from_miss ic r pv c s :
  Re.match_here ic r false pv (String c s) = None →
  search_from ic r pv (String c s) = search_from ic r (Some c) s.
Proof. intros E. simpl. by rewrite E. Qed.

(** A scan finds nothing exactly when a search finds nothing. *)
Lemma scan_nil_search ic r s : ∀ pv,
  Re.scan ic r pv s 0 = [] ↔ search_from ic r pv s = None.
Proof.
  induction s as [|c s IH]; intros pv; simpl.
  - destruct (Re.match_here ic r false pv "") as [m|]; [|done].
    split; [|done]. by destruct (Re.consumed "" (Re.rest m)).
  - destruct (Re.match_here ic r false pv (String c s)) as [m|]; [|apply IH].
    split; [|done]. by destruct (Re.consumed (String c s) (Re.rest m)).
Qed.

(** Every match of a scan is a match at some position of the text. *)
Lemma scan_from ic r m s : ∀ pv skip,
  m ∈ Re.scan ic r pv s skip →
  ∃ ma pv' pre s',
    s = pre ++ s' ∧ Re.match_here ic r ma pv' s' = Some m.
Proof.
  induction s as [|c s IH]; intros pv skip.
  - destruct skip as [|k]; simpl; [|by intros H%elem_of_nil].
    destruct (Re.match_here ic r false pv "") as [m0|] eqn:E0;
      [|by intros H%elem_of_nil].
    destruct (Re.match_here ic r true pv "") as [m1|] eqn:E1;
      destruct (Re.consumed "" (Re.rest m0));
      rewrite ?elem_of_cons, ?elem_of_nil;
      intros H; decompose [or] H; subst; try done;
      first [by exists false, pv, "", "" | by exists true, pv, "", ""].
  - assert (∀ k, m ∈ Re.scan ic r (Some c) s k →
              ∃ ma pv' pre s',
                String c s = pre ++ s' ∧
                Re.match_here ic r ma pv' s' = Some m) as Next.
    { intros k (ma & pv' & pre & s' & -> & E)%IH.
      by exists ma, pv', (String c pre), s'. }
    destruct skip as [|k]; cbn [Re.scan]; [|apply Next].
    destruct (Re.match_here ic r false pv (String c s)) as [m0|] eqn:E0;
      [|apply Next].
    destruct (Re.match_here ic r true pv (String c s)) as [m1|] eqn:E1;
      destruct (Re.consumed (String c s) (Re.rest m0));
      rewrite ?elem_of_cons;
      intros H; decompose [or] H; subst;
      first [ by exists false, pv, "", (String c s)
            | by exists true, pv, "", (String c s)
            | by eapply Next ].
Qed.

Section Whole.
Context {A : Type}.
Implicit Types (k : Re.mstate → option A).

Lemma star_greedy_inv_len p pv s g k res :
  Re.star_greedy p pv s g k = Some res →
  ∃ pv' s', k (Re.MState pv' s' g) = Some res
            ∧ (String.length s' ≤ String.length s)%nat.
Proof.
  revert pv. induction s as [|a s IH]; intros pv; simpl; [eauto|].
  destruct (p a); [|eauto].
  destruct (Re.star_greedy p (Some a) s g k) eqn:E; [|eauto].
  intros [= <-]. apply IH in E as (pv' & s' & E & L). eauto.
Qed.
End Whole.

(** The text of a match is what the pattern consumed at its position. *)
Lemma whole_match ic r ma pv s m :
  Re.match_here ic (Re.Group 0 r) ma pv s = Some m →
  ∃ t, Re.group m 0 = Some (Re.taken s t).
Proof.
  unfold Re.match_here. cbn [Re.rmatch].
  intros (st' & H & _)%rmatch_inv. cbn [Re.rest] in H.
  destruct (_ && _); [done|]. injection H as <-.
  exists (Re.rest st'). unfold Re.group, Re.set_group. simpl. done.
Qed.

Lemma length_substring0 s : ∀ n,
  (String.length (substring 0 n s) ≤ String.length s)%nat.
Proof.
  induction s as [|c s IH]; intros [|n]; simpl; try lia.
  specialize (IH n). lia.
Qed.

Lemma length_taken s t : (String.length (Re.taken s t) ≤ String.length s)%nat.
Proof. apply length_substring0. Qed.

(** Every text that [findall] reports lies inside the text searched. *)
Lemma findall_whole_inside ic r s x :
  x ∈ findall_whole ic r s →
  ∃ pre s' t, s = pre ++ s' ∧ x = Re.taken s' t ∧
    ∃ ma pv m, Re.match_here ic (Re.Group 0 r) ma pv s' = Some m.
Proof.
  unfold findall_whole. intros (m & -> & H)%list_elem_of_fmap.
  apply scan_from in H as (ma & pv & pre & s' & -> & E).
  destruct (whole_match _ _ _ _ _ _ E) as [t Et].
  exists pre, s', t. rewrite Et. split; [done|]. split; [done|].
  by exists ma, pv, m.
Qed.

Lemma flat_map_nil {X Y} (f : X → list Y) l :
  (∀ x, x ∈ l → f x = []) → flat_map f l = [].
Proof.
  induction l as [|x l IH]; intros H; [done|]. simpl.
  rewrite (H x) by left. apply IH. intros y Hy. apply H. by right.
Qed.

(** ** Macros *)

(** A test for the empty list made inside the loop over the list. *)
Lemma loop_over_matches {X Y} (l : list X) (d : list Y) :
  flat_map (fun _ => match l with [] => d | _ => [] end) l = [].
Proof. destruct l as [|x l]; [done|]. by apply flat_map_nil. Qed.

(** X13: the check of macros and saved searches never reports: its test
    for an empty list of matches is made inside the loop over the
    matches. *)
Theorem X13_macro_check_never_reports q :
  check_leverage_macros_saved_searches q = [].
Proof.
  unfold check_leverage_macros_saved_searches.
  generalize (findall_whole false Practice.leverage_macros_saved_searches q).
  intros matches. apply loop_over_matches.
Qed.

(** ** The index *)

Section Prefix.
Context {A : Type}.
Implicit Types (k : Re.mstate → option A).

Lemma Lits_prefix kw : ∀ pv s g k,
  has_prefix_ci kw s = true →
  ∃ pv' s', Re.rmatch true (Re.Lits kw) (Re.MState pv s g) k
            = k (Re.MState pv' s' g).
Proof.
  induction kw as [|c kw IH]; intros pv s g k; [by eexists _, _|].
  destruct s as [|a s]; [done|]. cbn [has_prefix_ci].
  intros [E H]%andb_true_iff. rewrite rmatch_Lits_cons, E. by apply IH.
Qed.
End Prefix.

Lemma match_here_Lits kw pv s :
  found (Re.match_here true (Re.Lits kw) false pv s) = has_prefix_ci kw s.
Proof.
  unfold Re.match_here. destruct (has_prefix_ci kw s) eqn:E.
  - destruct (Lits_prefix kw pv s [] 
      (fun st => if false && Nat.eqb (Re.consumed s (Re.rest st)) 0
                 then None else Some st) E) as (pv' & s' & ->).
    done.
  - by rewrite Lits_no_prefix.
Qed.

Lemma search_Lits kw s : ∀ pv,
  found (search_from true (Re.Lits kw) pv s) = mentions_ci kw s.
Proof.
  induction s as [|c s IH]; intros pv.
  - rewrite search_from_nil, match_here_Lits. simpl. by rewrite orb_false_r.
  - cbn [mentions_ci]. rewrite <- (match_here_Lits kw pv (String c s)).
    destruct (Re.match_here true (Re.Lits kw) false pv (String c s)) eqn:E.
    + by rewrite (search_from_hit _ _ _ _ _ E).
    + rewrite search_from_miss by done. simpl. apply IH.
Qed.

(** X14: on a query of Latin-1 characters the index check reports, once,
    exactly when the text "index=" does not occur in the query, letter case
    apart. *)
Theorem X14_index_check (q : latin1_str) :
  check_explicit_index q
  = if mentions_ci "index=" q then [] else [Description.explicit_index].
Proof.
  unfold check_explicit_index, re_search, Practice.index_eq.
  rewrite search_Lits. by destruct (mentions_ci "index=" q).
Qed.

(** ** Leading wildcards *)

Lemma occurs_tail kw pre s :
  has_prefix kw s = true → occurs kw (pre ++ s) = true.
Proof.
  intros H. induction pre as [|c pre IH].
  - rewrite sapp_nil_l. destruct s; simpl; by rewrite H.
  - rewrite sapp_cons. simpl. rewrite IH. apply orb_true_r.
Qed.

(** A match of the wildcard pattern that starts with an asterisk starts
    with two of them. *)
Lemma wildcard_match ma pv s m t :
  Re.match_here false (Re.Group 0 Practice.no_leading_wildcard) ma pv s
  = Some m →
  Re.group m 0 = Some t → String.prefix "*" t = true →
  has_prefix "**" s = true.
Proof.
  unfold Re.match_here, Practice.no_leading_wildcard.
  cbn [Re.rmatch]. rewrite rmatch_Seq_cons. cbn [Re.rmatch Re.rest].
  destruct s as [|c [|c2 [|c3 s3]]]; try done.
  - destruct (Practice.not_backslash c); [|done].
    by rewrite rmatch_Seq_cons.
  - destruct (Practice.not_backslash c); [|done].
    rewrite rmatch_Seq_cons. cbn [Re.rmatch Re.rest Re.step].
    destruct (Re.lit_eq false "*" c2); [|done].
    by rewrite rmatch_Seq_cons.
  - destruct (Practice.not_backslash c); [|done].
    rewrite rmatch_Seq_cons. cbn [Re.rmatch Re.rest Re.step].
    destruct (Re.lit_eq false "*" c2) eqn:E2; [|done].
    rewrite rmatch_Seq_cons. cbn [Re.rmatch Re.Plus Re.rest Re.step Re.prev Re.caps].
    destruct (Practice.w c3); [|done].
    intros (pv' & s' & H & L)%star_greedy_inv_len.
    rewrite rmatch_Seq_nil in H. cbn [Re.rest] in H.
    destruct (_ && _); [done|]. injection H as <-.
    unfold Re.group, Re.set_group. cbn [Re.caps Re.assoc Nat.eqb].
    intros [= <-]. unfold Re.taken, Re.consumed.
    replace (String.length (String c (String c2 (String c3 s3)))
             - String.length s')
      with (S (S (S (String.length s3 - String.length s'))))
      by (simpl; lia).
    cbn [substring String.prefix].
    unfold Re.lit_eq in E2. apply Ascii.eqb_eq in E2 as ->.
    destruct (ascii_dec "*" c) as [<-|]; [|done]. done.
Qed.

(** A reported text of the wildcard pattern that starts with an asterisk
    lies where two asterisks are. *)
Lemma wildcard_reported q x :
  x ∈ findall_whole false Practice.no_leading_wildcard q →
  String.prefix "*" x = true → occurs "**" q = true.
Proof.
  unfold findall_whole. intros (m & -> & H)%list_elem_of_fmap Ep.
  apply scan_from in H as (ma & pv & pre & s' & -> & E).
  destruct (whole_match _ _ _ _ _ _ E) as [t Et].
  rewrite Et in Ep. simpl in Ep.
  apply occurs_tail. exact (wildcard_match _ _ _ _ _ E Et Ep).
Qed.

(** X15: the wildcard check reports nothing unless two asterisks in a row
    occur in the query: a single asterisk at the start of a term is not
    reported. *)
Theorem X15_wildcard_check_needs_two_asterisks q :
  occurs "**" q = false → check_no_leading_wildcard q = [].
Proof.
  intros Hq. unfold check_no_leading_wildcard. apply flat_map_nil.
  intros x Hx. destruct (String.prefix "*" x) eqn:Ep; [|done].
  pose proof (wildcard_reported q x Hx Ep) as Ho. congruence.
Qed.

Lemma X15_witness :
  occurs "**" "*error OR host=*web" = false ∧
  check_no_leading_wildcard "*error OR host=*web" = [].
Proof.
  split; [reflexivity|].
  exact (X15_wildcard_check_needs_two_asterisks "*error OR host=*web" eq_refl).
Defined.

(** ** Long regular expressions *)

(** X16: the regex check reports nothing on a query of at most 100
    characters. *)
Theorem X16_regex_check_on_short_queries q :
  (String.length q ≤ 100)%nat → check_efficient_regex_usage q = [].
Proof.
  intros Hq. unfold check_efficient_regex_usage. apply flat_map_nil.
  intros x (pre & s' & t & -> & -> & _)%findall_whole_inside.
  pose proof (length_taken s' t) as L. rewrite slength_app in Hq.
  destruct (Nat.ltb_spec 100 (String.length (Re.taken s' t))); [lia|done].
Qed.

Lemma X16_witness :
  (String.length "| regex field=/a*b*c*/" ≤ 100)%nat ∧
  check_efficient_regex_usage "| regex field=/a*b*c*/" = [].
Proof.
  assert (H : (String.length "| regex field=/a*b*c*/" ≤ 100)%nat)
    by (vm_compute; lia).
  split; [exact H|].
  exact (X16_regex_check_on_short_queries "| regex field=/a*b*c*/" H).
Defined.

(** ** The word [stats] *)

Lemma nonword_not_letter c a :
  Char.isword c = true → Char.isword a = false → Re.lit_eq true c a = false.
Proof.
  intros Hc Ha. destruct (Re.lit_eq true c a) eqn:E; [|done].
  apply lit_eq_isword in E. congruence.
Qed.

Lemma lower_length s : String.length (lower s) = String.length s.
Proof. induction s as [|c s IH]; [done|]. simpl. by rewrite IH. Qed.

(** At the start of a word, the pattern matches exactly when the word is
    [stats]. *)
Lemma tstats_at_word pv w s :
  word_before pv = false → is_name w = true →
  starts_with Char.isword s = false →
  found (Re.match_here true Practice.prefer_tstats false pv (w ++ s))
  = is_word_ci "stats" w.
Proof.
  intros Hpv Hw Hs. unfold Re.match_here, Practice.prefer_tstats.
  rewrite rmatch_Seq_cons. cbn [Re.rmatch Re.rest Re.prev].
  pose proof (is_name_inv _ Hw) as (c & w' & Ew & Hc & Hw').
  rewrite Ew at 1. rewrite sapp_cons, boundary_start by done.
  rewrite rmatch_Seq_cons.
  unfold is_word_ci. destruct (String.eqb_spec (lower w) "stats") as [E|Hne].
  - rewrite rmatch_Lits_ci by done. rewrite rmatch_Seq_cons.
    cbn [Re.rmatch Re.rest Re.prev].
    rewrite boundary_stop; [done| by apply after_name | done].
  - rewrite Lits_word; [done|done|done|].
    intros y1 y2 -> Hl. rewrite rmatch_Seq_cons.
    cbn [Re.rmatch Re.rest Re.prev].
    assert (is_name y1 = true) as Hy1.
    { apply (lower_name y1 "stats"); done. }
    destruct y2 as [|d y2].
    { rewrite sapp_nil_r in Hne. done. }
    rewrite sapp_cons, boundary_inside; [done| by apply after_name |].
    apply is_name_all in Hw. rewrite all_chars_app in Hw.
    apply andb_true_iff in Hw as [_ Hw]. simpl in Hw.
    by apply andb_true_iff in Hw as [Hd _].
Qed.

(** Inside a word or between words, the pattern does not match. *)
Lemma tstats_inside pv c s :
  word_before pv = true → Char.isword c = true →
  Re.match_here true Practice.prefer_tstats false pv (String c s) = None.
Proof.
  intros Hpv Hc. unfold Re.match_here, Practice.prefer_tstats.
  rewrite rmatch_Seq_cons. cbn [Re.rmatch Re.rest Re.prev].
  by rewrite boundary_inside.
Qed.

Lemma tstats_outside pv s :
  starts_with Char.isword s = false →
  Re.match_here true Practice.prefer_tstats false pv s = None.
Proof.
  intros Hs. unfold Re.match_here, Practice.prefer_tstats.
  rewrite rmatch_Seq_cons. cbn [Re.rmatch Re.rest Re.prev].
  destruct (Re.at_boundary pv s); [|done].
  rewrite rmatch_Seq_cons. destruct s as [|a s]; [done|].
  rewrite rmatch_Lits_cons. simpl in Hs.
  by rewrite nonword_not_letter.
Qed.

Lemma tstats_skip w : ∀ pv s,
  word_before pv = true → all_chars Char.isword w = true →
  search_from true Practice.prefer_tstats pv (w ++ s)
  = search_from true Practice.prefer_tstats (after pv w) s.
Proof.
  induction w as [|c w IH]; intros pv s Hpv Hw; [by rewrite sapp_nil_l|].
  simpl in Hw. apply andb_true_iff in Hw as [Hc Hw].
  rewrite sapp_cons, search_from_miss by (by apply tstats_inside).
  by rewrite IH.
Qed.

Lemma tstats_search n : ∀ s pv,
  (String.length s ≤ n)%nat → word_before pv = false →
  found (search_from true Practice.prefer_tstats pv s)
  = existsb (is_word_ci "stats") (word_tokens s).
Proof.
  induction n as [|n IH]; intros s pv Hn Hpv.
  - destruct s; [|simpl in Hn; lia].
    by rewrite search_from_nil, tstats_outside.
  - destruct s as [|c s].
    { by rewrite search_from_nil, tstats_outside. }
    destruct (Char.isword c) eqn:Hc.
    + destruct (span_word c s Hc) as (w & s2 & E & Hw & Hs2).
      rewrite E in *. unfold word_tokens.
      rewrite tokens_run by (by apply is_name_all).
      rewrite sapp_nil_l, (tokens_flush w), flush_name by done.
      cbn [app existsb].
      rewrite <- (tstats_at_word pv w s2) by done.
      destruct (Re.match_here true Practice.prefer_tstats false pv (w ++ s2))
        as [m|] eqn:Em.
      { by rewrite (search_from_hit _ _ _ _ _ Em). }
      cbn [found orb].
      pose proof (is_name_inv _ Hw) as (c' & w' & Ew & Hc' & Hw').
      rewrite Ew in Em |- *. rewrite sapp_cons in Em |- *.
      rewrite search_from_miss by done.
      rewrite tstats_skip by done.
      destruct s2 as [|d s3].
      { by rewrite search_from_nil, tstats_outside. }
      simpl in Hs2.
      rewrite search_from_miss by (by apply tstats_outside).
      rewrite IH; [| |by simpl].
      * unfold word_tokens. simpl. by rewrite Hs2.
      * rewrite Ew, slength_app in Hn. simpl in Hn. lia.
    + rewrite search_from_miss by (by apply tstats_outside).
      rewrite IH; [| simpl in Hn; lia | by simpl].
      unfold word_tokens. simpl. by rewrite Hc.
Qed.

(** X17: on a query of Latin-1 characters the [stats] check reports, once,
    exactly when one of the words of the query is [stats], letter case
    apart; a longer word such as [tstats] or [eventstats] does not count. *)
Theorem X17_stats_check_is_on_whole_words (q : latin1_str) :
  check_prefer_tstats q
  = if existsb (is_word_ci "stats") (word_tokens q)
    then [Description.prefer_tstats] else [].
Proof.
  unfold check_prefer_tstats, re_search.
  by rewrite (tstats_search (String.length q)).
Qed.

(** ** Commands without effect *)

Section Total.
Context {A : Type}.
Implicit Types (k : Re.mstate → option A).

Lemma star_greedy_total p s : ∀ pv g k,
  (∀ st, is_Some (k st)) → is_Some (Re.star_greedy p pv s g k).
Proof.
  induction s as [|a s IH]; intros pv g k Hk; simpl; [done|].
  destruct (p a); [|done].
  destruct (IH (Some a) g k Hk) as [r ->]. done.
Qed.
End Total.

Lemma unnecessary_total pv s g (k : Re.mstate → option Re.mstate) :
  (∀ st, is_Some (k st)) →
  found (Re.rmatch true Practice.avoid_unnecessary_commands
           (Re.MState pv s g) k)
  = has_prefix_ci "| where 1=1" s || has_prefix_ci "| search " s.
Proof.
  intros Hk. unfold Practice.avoid_unnecessary_commands. cbn [Re.rmatch].
  destruct (has_prefix_ci "| where 1=1" s) eqn:E1.
  - destruct (Lits_prefix "| where 1=1" pv s g k E1) as (pv' & s' & ->).
    by destruct (Hk (Re.MState pv' s' g)) as [r ->].
  - rewrite Lits_no_prefix by done. rewrite rmatch_Seq_cons.
    destruct (has_prefix_ci "| search " s) eqn:E2.
    + destruct (Lits_prefix "| search " pv s g
        (fun st' => Re.rmatch true (Pattern.Seq [Re.Star true Practice.any])
                      st' k) E2)
        as (pv' & s' & ->).
      rewrite rmatch_Seq_cons. cbn [Re.rmatch Re.rest Re.prev Re.caps].
      destruct (star_greedy_total Practice.any s' pv' g
        (fun st' => Re.rmatch true (Pattern.Seq []) st' k))
        as [r ->]; [|done].
      intros st. rewrite rmatch_Seq_nil. apply Hk.
    + by rewrite Lits_no_prefix.
Qed.

Lemma unnecessary_here pv s :
  found (Re.match_here true (Re.Group 0 Practice.avoid_unnecessary_commands)
           false pv s)
  = has_prefix_ci "| where 1=1" s || has_prefix_ci "| search " s.
Proof.
  unfold Re.match_here. cbn [Re.rmatch]. apply unnecessary_total.
  intros st. by simpl.
Qed.

Lemma orb_cross a b c d : a || b || (c || d) = (a || c) || (b || d).
Proof. by destruct a, b, c, d. Qed.

Lemma unnecessary_search s : ∀ pv,
  found (search_from true (Re.Group 0 Practice.avoid_unnecessary_commands)
           pv s)
  = mentions_ci "| where 1=1" s || mentions_ci "| search " s.
Proof.
  induction s as [|c s IH]; intros pv.
  - by rewrite search_from_nil, unnecessary_here.
  - cbn [mentions_ci].
    rewrite orb_cross.
    rewrite <- (unnecessary_here pv (String c s)), <- (IH (Some c)).
    destruct (Re.match_here true _ false pv (String c s)) eqn:E.
    + by rewrite (search_from_hit _ _ _ _ _ E).
    + by rewrite search_from_miss.
Qed.

Lemma unnecessary_scan q :
  Re.scan true (Re.Group 0 Practice.avoid_unnecessary_commands) None q 0 = []
  ↔ mentions_ci "| where 1=1" q || mentions_ci "| search " q = false.
Proof.
  rewrite scan_nil_search, <- (unnecessary_search q None).
  by destruct (search_from true _ None q).
Qed.

(** X18: on a query of Latin-1 characters the check of commands without
    effect reports nothing exactly when neither "| where 1=1" nor
    "| search " occurs in the query, letter case apart; whatever it reports
    is its one description. *)
Theorem X18_commands_without_effect (q : latin1_str) :
  (check_avoid_unnecessary_commands q = []
   ↔ mentions_ci "| where 1=1" q = false ∧ mentions_ci "| search " q = false)
  ∧ ∀ d, d ∈ check_avoid_unnecessary_commands q
         → d = Description.avoid_unnecessary_commands.
Proof.
  unfold check_avoid_unnecessary_commands, findall_whole. split.
  - rewrite <- orb_false_iff, <- unnecessary_scan.
    by destruct (Re.scan true _ None q 0).
  - intros d. induction (map _ _) as [|x l IH]; simpl.
    + by intros H%elem_of_nil.
    + intros [->|H]%elem_of_cons; [done|by apply IH].
Qed.

(** ** Brackets *)

Lemma bracket_lit a : Re.lit_eq true "[" a = Ascii.eqb a "[".
Proof. by_char a. Qed.

Lemma closing_lit a : Re.lit_eq true "]" a = Ascii.eqb a "]".
Proof. by_char a. Qed.

Lemma closing_split body rest :
  closing body = Some rest →
  ∃ inner, body = inner ++ String "]" rest
           ∧ all_chars Char.notnl inner = true
           ∧ all_chars (fun c => negb (Ascii.eqb c "]")) inner = true.
Proof.
  revert rest. induction body as [|c body IH]; intros rest; [done|].
  simpl. destruct (Ascii.eqb_spec c "]") as [->|Hc].
  - intros [= <-]. by exists "".
  - destruct (Char.notnl c) eqn:Hn; [|done].
    intros (inner & -> & H1 & H2)%IH. exists (String c inner).
    rewrite sapp_cons. split; [done|]. simpl. rewrite Hn, H1, H2.
    by destruct (Ascii.eqb_spec c "]").
Qed.

Lemma pairs_closed inner rest :
  all_chars Char.notnl inner = true →
  all_chars (fun c => negb (Ascii.eqb c "]")) inner = true →
  bracket_pairs true (inner ++ String "]" rest)
  = S (bracket_pairs false rest).
Proof.
  induction inner as [|c inner IH]; [done|].
  rewrite sapp_cons. simpl.
  intros [Hn H1]%andb_true_iff [Hc H2]%andb_true_iff.
  apply negb_true_iff in Hc.
  rewrite Hc, Hn. by apply IH.
Qed.

Lemma pairs_unclosed body :
  closing body = None → bracket_pairs true body = bracket_pairs false body.
Proof.
  induction body as [|c body IH]; [done|]. simpl.
  destruct (Ascii.eqb_spec c "]") as [->|Hc]; [done|].
  destruct (Char.notnl c) eqn:Hn.
  - intros H. rewrite (IH H). by destruct (Ascii.eqb c "[").
  - intros _. destruct (Ascii.eqb_spec c "[") as [->|]; [done|done].
Qed.

Section Lazy.
Context {A : Type}.
Implicit Types (k : Re.mstate → option A).

Lemma star_lazy_unclosed body : ∀ pv g k,
  closing body = None →
  Re.star_lazy Char.notnl pv body g
    (fun st => Re.rmatch true (Pattern.Seq [Re.Lit "]"]) st k)
  = None.
Proof.
  induction body as [|c body IH]; intros pv g k; [done|].
  cbn [closing]. destruct (Ascii.eqb c "]") eqn:Hc; [done|].
  intros H. cbn [Re.star_lazy]. rewrite rmatch_Seq_cons.
  cbn [Re.rmatch Re.rest]. rewrite closing_lit, Hc.
  destruct (Char.notnl c); [by apply IH|done].
Qed.
End Lazy.

Lemma subsearch_none pv c s :
  Ascii.eqb c "[" = false →
  Re.match_here true (Re.Group 0 Practice.use_lookups_over_subsearches)
    false pv (String c s) = None.
Proof.
  intros Hc. unfold Re.match_here, Practice.use_lookups_over_subsearches.
  cbn [Re.rmatch]. rewrite rmatch_Seq_cons. cbn [Re.rmatch Re.rest].
  by rewrite bracket_lit, Hc.
Qed.

Lemma subsearch_unclosed pv body :
  closing body = None →
  Re.match_here true (Re.Group 0 Practice.use_lookups_over_subsearches)
    false pv (String "[" body) = None.
Proof.
  intros Hc. unfold Re.match_here, Practice.use_lookups_over_subsearches.
  cbn [Re.rmatch]. rewrite rmatch_Seq_cons. cbn [Re.rmatch Re.rest].
  rewrite bracket_lit. cbn [Ascii.eqb Bool.eqb]. cbv iota.
  rewrite rmatch_Seq_cons. cbn [Re.rmatch Re.step Re.rest Re.prev Re.caps].
  by apply star_lazy_unclosed.
Qed.

Lemma subsearch_closed pv inner rest :
  all_chars Char.notnl inner = true →
  all_chars (fun c => negb (Ascii.eqb c "]")) inner = true →
  ∃ m,
    Re.match_here true (Re.Group 0 Practice.use_lookups_over_subsearches)
      false pv (String "[" inner ++ String "]" rest) = Some m
    ∧ Re.rest m = rest.
Proof.
  intros Hn Hc. unfold Re.match_here, Practice.use_lookups_over_subsearches.
  cbn [Re.rmatch]. rewrite sapp_cons, rmatch_Seq_cons.
  cbn [Re.rmatch Re.rest]. rewrite bracket_lit.
  cbn [Ascii.eqb Bool.eqb]. cbv iota.
  rewrite rmatch_Seq_cons. cbn [Re.rmatch Re.step Re.rest Re.prev Re.caps].
  rewrite (star_lazy_skip _ (fun c => negb (Ascii.eqb c "]")) inner);
    [|done|done|].
  - destruct rest as [|d rest]; cbn [Re.star_lazy];
      rewrite rmatch_Seq_cons; cbn [Re.rmatch Re.rest Re.step];
      rewrite closing_lit; cbn [Ascii.eqb Bool.eqb]; cbv iota;
      rewrite rmatch_Seq_nil; cbn [Re.rest andb]; by eexists.
  - intros pv' c s Hq. rewrite rmatch_Seq_cons. cbn [Re.rmatch Re.rest].
    rewrite closing_lit. apply negb_true_iff in Hq. by rewrite Hq.
Qed.

Lemma subsearch_scan n : ∀ s pv,
  (String.length s ≤ n)%nat →
  length (Re.scan true (Re.Group 0 Practice.use_lookups_over_subsearches)
            pv s 0)
  = bracket_pairs false s.
Proof.
  induction n as [|n IH]; intros s pv Hn.
  - destruct s; [|simpl in Hn; lia]. by rewrite scan_end.
  - destruct s as [|c s]; [by rewrite scan_end|].
    cbn [bracket_pairs]. simpl in Hn.
    destruct (Ascii.eqb_spec c "[") as [->|Hc].
    + destruct (closing s) as [rest|] eqn:E.
      * apply closing_split in E as (inner & -> & H1 & H2).
        destruct (subsearch_closed pv inner rest H1 H2) as (m & Em & Er).
        replace (String "[" (inner ++ String "]" rest))
          with ((String "[" inner ++ "]") ++ rest)
          by (by rewrite !sapp_cons, sapp_assoc, sapp_cons, sapp_nil_l).
        erewrite scan_hit; [|done| |exact Er].
        2:{ by rewrite !sapp_cons, sapp_assoc, sapp_cons, sapp_nil_l,
                       <- sapp_cons. }
        cbn [length]. rewrite IH, pairs_closed by
          (done || rewrite slength_app in Hn; simpl in Hn; lia). done.
      * rewrite scan_miss by (by apply subsearch_unclosed).
        rewrite IH by lia. by rewrite pairs_unclosed.
    + rewrite scan_miss.
      * apply IH. lia.
      * apply subsearch_none. by destruct (Ascii.eqb_spec c "[").
Qed.

(** X19: the subsearch check reports once per bracket pair: an opening
    bracket counts with the next closing bracket of the same line, and the
    brackets in between do not count. *)
Theorem X19_one_report_per_bracket_pair q :
  check_use_lookups_over_subsearches q
  = replicate (bracket_pairs false q)
              Description.use_lookups_over_subsearches.
Proof.
  unfold check_use_lookups_over_subsearches, findall_whole.
  rewrite <- (subsearch_scan (String.length q) q None) by done.
  induction (Re.scan true _ None q 0) as [|m l IH]; [done|].
  simpl. by rewrite IH.
Qed.

(** ** The time range *)

Lemma lstrip_split s :
  ∃ w, s = w ++ lstrip s ∧ all_chars Char.isspace w = true.
Proof.
  induction s as [|c s (w & E & Hw)]; [by exists ""|]. simpl.
  destruct (Char.isspace c) eqn:Hc.
  - exists (String c w). rewrite sapp_cons, <- E. split; [done|].
    simpl. by rewrite Hc, Hw.
  - by exists "".
Qed.

Lemma eq_not_space c : Char.isspace c = true → Re.lit_eq true "=" c = false.
Proof. by_char c. Qed.

Lemma eq_lit c : Re.lit_eq true "=" c = is_eq c.
Proof. by_char c. Qed.

Section Assign.
Context {A : Type}.
Implicit Types (k : Re.mstate → option A).

Lemma Lits_after kw : ∀ pv s g k,
  match after_prefix_ci kw s with
  | Some r => ∃ pv', Re.rmatch true (Re.Lits kw) (Re.MState pv s g) k
                     = k (Re.MState pv' r g)
  | None => Re.rmatch true (Re.Lits kw) (Re.MState pv s g) k = None
  end.
Proof.
  induction kw as [|c kw IH]; intros pv s g k; [by exists pv|].
  destruct s as [|a s]; [done|]. cbn [after_prefix_ci].
  rewrite rmatch_Lits_cons. destruct (Re.lit_eq true c a); [|done].
  apply IH.
Qed.

(** A keyword, optional white space, an equals sign, optional white
    space. *)
Lemma assign_match kw pv s g k :
  (∀ st, is_Some (k st)) →
  is_Some
    (Re.rmatch true
       (Pattern.Seq [Re.Lits kw; Re.Star true Practice.ws; Re.Lit "=";
                     Re.Star true Practice.ws])
       (Re.MState pv s g) k)
  ↔ assigns kw s = true.
Proof.
  intros Hk. unfold assigns. rewrite rmatch_Seq_cons.
  pose proof (Lits_after kw pv s g
    (fun st' => Re.rmatch true
       (Pattern.Seq [Re.Star true Practice.ws; Re.Lit "=";
                     Re.Star true Practice.ws]) st' k)) as H.
  destruct (after_prefix_ci kw s) as [r|]; [|rewrite H; split; [by intros []|done]].
  destruct H as [pv' ->]. rewrite rmatch_Seq_cons.
  cbn [Re.rmatch Re.rest Re.prev Re.caps].
  destruct (lstrip_split r) as (w & E & Hw). rewrite E at 1.
  rewrite (star_greedy_skip _ Char.isspace w); [|done|done| |].
  - rewrite rmatch_Seq_cons. cbn [Re.rmatch Re.rest].
    destruct (lstrip r) as [|a t]; [split; [by intros []|done]|].
    rewrite eq_lit. cbn [starts_with]. destruct (is_eq a).
    + rewrite rmatch_Seq_cons. cbn [Re.rmatch Re.rest Re.prev Re.caps Re.step].
      split; [done|]. intros _. apply star_greedy_total.
      intros st. rewrite rmatch_Seq_nil. apply Hk.
    + split; [by intros []|done].
  - apply lstrip_starts.
  - intros pv0 c t Hc. rewrite rmatch_Seq_cons. cbn [Re.rmatch Re.rest].
    by rewrite eq_not_space.
Qed.
End Assign.

Lemma time_range_here pv s :
  found (Re.match_here true Practice.time_range false pv s)
  = assigns "earliest" s || assigns "latest" s.
Proof.
  unfold Re.match_here, Practice.time_range. cbn [Re.rmatch andb].
  assert (Hk : ∀ st : Re.mstate, is_Some (Some st)) by (by intros).
  pose proof (assign_match "earliest" pv s [] Some Hk) as H1.
  pose proof (assign_match "latest" pv s [] Some Hk) as H2.
  destruct (Re.rmatch true _ _ _) as [m1|].
  - destruct H1 as [-> _]; done.
  - destruct (assigns "earliest" s).
    { destruct H1 as [_ H1]. by destruct (H1 eq_refl). }
    destruct (Re.rmatch true _ _ _) as [m2|].
    + destruct H2 as [-> _]; done.
    + destruct (assigns "latest" s); [|done].
      destruct H2 as [_ H2]. by destruct (H2 eq_refl).
Qed.

Lemma time_range_search s : ∀ pv,
  found (search_from true Practice.time_range pv s)
  = anywhere (fun t => assigns "earliest" t || assigns "latest" t) s.
Proof.
  induction s as [|c s IH]; intros pv.
  - by rewrite search_from_nil, time_range_here.
  - cbn [anywhere]. rewrite <- (time_range_here pv (String c s)), <- (IH (Some c)).
    destruct (Re.match_here true _ false pv (String c s)) eqn:E.
    + by rewrite (search_from_hit _ _ _ _ _ E).
    + by rewrite search_from_miss.
Qed.

(** X20: on a query of Latin-1 characters the time-range check reports,
    once, exactly when neither [earliest] nor [latest], followed by
    optional white space and an equals sign, occurs in the query, letter
    case apart; where in the query it occurs plays no part. *)
Theorem X20_time_range_check_anywhere (q : latin1_str) :
  check_early_time_range q
  = if anywhere (fun t => assigns "earliest" t || assigns "latest" t) q
    then [] else [Description.early_time_range].
Proof.
  unfold check_early_time_range, re_search.
  rewrite time_range_search. by destruct (anywhere _ q).
Qed.

(** ** A query that passes every check *)

Section Keyword.
Context {A : Type}.
Implicit Types (k : Re.mstate → option A).

Lemma Lits_no_prefix_cs kw : ∀ pv s g k,
  has_prefix kw s = false →
  Re.rmatch false (Re.Lits kw) (Re.MState pv s g) k = None.
Proof.
  induction kw as [|c kw IH]; intros pv s g k; [done|].
  destruct s as [|a s]; [done|]. cbn [has_prefix].
  rewrite rmatch_Lits_cons. unfold Re.lit_eq.
  destruct (Ascii.eqb a c); [|done]. cbn [andb]. apply IH.
Qed.
End Keyword.

(** A pattern that starts with a keyword finds nothing in a text that does
    not mention the keyword. *)
Lemma search_no_keyword kw rs s : ∀ pv,
  mentions_ci kw s = false →
  search_from true (Pattern.Seq (Re.WordB :: Re.Lits kw :: rs)) pv s = None.
Proof.
  assert (H : ∀ pv t, has_prefix_ci kw t = false →
            Re.match_here true (Pattern.Seq (Re.WordB :: Re.Lits kw :: rs))
              false pv t = None).
  { intros pv t Ht. unfold Re.match_here. rewrite rmatch_Seq_cons.
    cbn [Re.rmatch Re.rest Re.prev].
    destruct (Re.at_boundary pv t); [|done].
    rewrite rmatch_Seq_cons. by apply Lits_no_prefix. }
  induction s as [|c s IH]; intros pv Hm; cbn [mentions_ci] in Hm;
    apply orb_false_iff in Hm as [Hp Hm].
  - by rewrite search_from_nil, H.
  - rewrite search_from_miss by (by apply H). by apply IH.
Qed.

Lemma regex_check_nil q :
  occurs "regex" q = false → check_efficient_regex_usage q = [].
Proof.
  intros Hq. unfold check_efficient_regex_usage, findall_whole.
  replace (Re.scan false (Re.Group 0 Practice.efficient_regex_usage) None q 0)
    with (@nil Re.mstate); [done|].
  symmetry. apply scan_nil_search. generalize (@None ascii).
  induction q as [|c q IH]; intros pv; cbn [occurs] in Hq;
    apply orb_false_iff in Hq as [Hp Hq].
  - rewrite search_from_nil. unfold Re.match_here. cbn [Re.rmatch].
    unfold Practice.efficient_regex_usage. rewrite rmatch_Seq_cons.
    by apply Lits_no_prefix_cs.
  - rewrite search_from_miss; [by apply IH|].
    unfold Re.match_here. cbn [Re.rmatch].
    unfold Practice.efficient_regex_usage. rewrite rmatch_Seq_cons.
    by apply Lits_no_prefix_cs.
Qed.

(** X21: a query of Latin-1 characters passes every check of
    [check_best_practices] when it mentions an index and a time range and
    has none of: two asterisks in a row, the texts [select], [join],
    [regex], "| where 1=1" and "| search ", the word [stats], a bracket
    pair. *)
Theorem X21_a_query_that_passes_every_check name (q : latin1_str) :
  mentions_ci "index=" q = true →
  anywhere (fun t => assigns "earliest" t || assigns "latest" t) q = true →
  occurs "**" q = false →
  mentions_ci "select" q = false →
  mentions_ci "join" q = false →
  existsb (is_word_ci "stats") (word_tokens q) = false →
  mentions_ci "| where 1=1" q = false →
  mentions_ci "| search " q = false →
  bracket_pairs false q = 0 →
  occurs "regex" q = false →
  check_best_practices name q = [].
Proof.
  intros Hi Ht Hw Hs Hj Hst Hu1 Hu2 Hb Hr. unfold check_best_practices.
  assert (check_no_leading_wildcard q = []) as ->.
  { unfold check_no_leading_wildcard. apply flat_map_nil.
    intros x Hx. destruct (String.prefix "*" x) eqn:Ep; [|done].
    pose proof (wildcard_reported q x Hx Ep) as Ho. congruence. }
  assert (check_explicit_index q = []) as ->.
  { unfold check_explicit_index, re_search, Practice.index_eq.
    by rewrite search_Lits, Hi. }
  assert (check_early_time_range q = []) as ->.
  { unfold check_early_time_range, re_search.
    by rewrite time_range_search, Ht. }
  assert (check_limit_field_selection q = []) as ->.
  { unfold check_limit_field_selection, re_search,
      Practice.limit_field_selection.
    by rewrite search_no_keyword. }
  assert (check_optimize_join_usage q = []) as ->.
  { unfold check_optimize_join_usage, re_search,
      Practice.optimize_join_usage.
    by rewrite search_no_keyword. }
  assert (check_prefer_tstats q = []) as ->.
  { unfold check_prefer_tstats, re_search.
    by rewrite (tstats_search (String.length q)), Hst. }
  assert (check_avoid_unnecessary_commands q = []) as ->.
  { unfold check_avoid_unnecessary_commands, findall_whole.
    rewrite (proj2 (unnecessary_scan q)); [done|]. by rewrite Hu1, Hu2. }
  assert (check_use_lookups_over_subsearches q = []) as ->.
  { unfold check_use_lookups_over_subsearches, findall_whole.
    pose proof (subsearch_scan (String.length q) q None) as L.
    rewrite Hb in L. by destruct (Re.scan true _ None q 0); [|simpl in L; lia]. }
  assert (check_efficient_regex_usage q = []) as ->
    by (by apply regex_check_nil).
  cbn [app]. unfold check_leverage_macros_saved_searches.
  apply loop_over_matches.
Qed.

Lemma X21_witness :
  check_best_practices "n"
    "index=web earliest=-1h host=app* | fields host | tstats count by host"
  = [].
Proof.
  apply X21_a_query_that_passes_every_check; reflexivity.
Defined.

